(** * kube-grpc: the connection-pool engine of [main.go]

    A shallow embedding of package [kubegrpc]: the registry
    [connectionCache], the per-service pool ([connection]) with its slice of
    [*grpcConnection], the populate step [updateConnectionPool], the
    health-check pass [healthCheck], the eviction step [cleanConnections],
    the full scan [updatePool] and the public entry point [Connect].

    Go pointers are locations in two append-only object stores (one for
    [connection] objects, one for [grpcConnection] objects), so pointer
    identity ([gc == v]) and aliasing through [connectionCache] and
    [updateList] are those of the program.  Runtime panics, [log.Fatal] and a
    goroutine parked on a channel are outcomes of their own. *)

From Stdlib Require Import ZArith String List Lia.
From stdpp Require Import base option list gmap strings.
Import ListNotations.

Local Open Scope string_scope.
Local Open Scope list_scope.
Local Open Scope Z_scope.

(** ** Values of the external packages *)

(** Go's [error]: [None] is the nil error. *)
Definition error := string.

(** The application-level client, an [interface{}] produced by the caller's
    [NewGrpcClient]; [None] is the nil interface. *)
Definition Handle := nat.

(** [*grpc.ClientConn] as returned by [grpc.Dial]. *)
Record ClientConn := { cc_target : string }.

(** [corev1.Service]: the name and [Spec.Selector]. *)
Record Service := { svc_Name : string; svc_Selector : list (string * string) }.

(** [corev1.Pod]: [Status.PodIP]. *)
Record Pod := { PodIP : string }.

(** The cluster as the program sees it through [clientset.CoreV1()] and
    [grpc.Dial]: the three calls that leave the package. *)
Record Cluster := {
  Services_List : string -> list Service * option error;
  Pods_List : string -> list (string * string) -> option (list Pod) * option error;
  Dial : string -> option ClientConn * option error
}.

(** [GrpcKubeBalancer]: the interface supplied by the caller. *)
Record GrpcKubeBalancer := {
  NewGrpcClient : option ClientConn -> option Handle * option error;
  Ping : option Handle -> option error
}.

(** ** Data model *)

(** Locations of [grpcConnection] objects and of [connection] objects. *)
Abbreviation loc := nat.
Abbreviation ploc := nat.

Record grpcConnection := {
  gc_grpcConnection : option Handle;
  connectionIP : string;
  serviceName : string;
  namespace : string
}.

Record connection := {
  nConnections : Z;                 (* int32 *)
  functions : GrpcKubeBalancer;
  pool_grpcConnection : list loc    (* []*grpcConnection *)
}.

(** [chan *grpcConnection]: capacity, queued values, closed flag. *)
Record chan := { ch_cap : nat; ch_buf : list loc; ch_closed : bool }.

Inductive goroutine :=
| go_healthCheck
| go_updatePool
| go_cleanConnections (dirtyConnections : chan).

(** What the process does that is visible from outside the pool. *)
Inductive event :=
| EvSleep (d : Z)                   (* time.Sleep, in nanoseconds *)
| EvPing (c : loc)                  (* functions.Ping on that connection *)
| EvDial (ip : string)              (* grpc.Dial *)
| EvGo (g : goroutine).             (* a go statement *)

Record state := {
  connectionCache : gmap string ploc;   (* map[string]*connection *)
  poolHeap : list connection;           (* the connection objects *)
  connHeap : list grpcConnection;       (* the grpcConnection objects *)
  clientset : Cluster;
  randSrc : nat -> Z;                   (* the draws of the math/rand source *)
  randPos : nat;                        (* how many draws were taken *)
  trace : list event
}.

(** Assignments to one component of the state. *)
Definition with_cache (m : gmap string nat) (s : state) : state :=
  {| connectionCache := m; poolHeap := poolHeap s; connHeap := connHeap s;
     clientset := clientset s; randSrc := randSrc s; randPos := randPos s;
     trace := trace s |}.
Definition with_poolHeap (h : list connection) (s : state) : state :=
  {| connectionCache := connectionCache s; poolHeap := h; connHeap := connHeap s;
     clientset := clientset s; randSrc := randSrc s; randPos := randPos s;
     trace := trace s |}.
Definition with_connHeap (h : list grpcConnection) (s : state) : state :=
  {| connectionCache := connectionCache s; poolHeap := poolHeap s; connHeap := h;
     clientset := clientset s; randSrc := randSrc s; randPos := randPos s;
     trace := trace s |}.
Definition with_randPos (n : nat) (s : state) : state :=
  {| connectionCache := connectionCache s; poolHeap := poolHeap s; connHeap := connHeap s;
     clientset := clientset s; randSrc := randSrc s; randPos := n;
     trace := trace s |}.
Definition with_trace (t : list event) (s : state) : state :=
  {| connectionCache := connectionCache s; poolHeap := poolHeap s; connHeap := connHeap s;
     clientset := clientset s; randSrc := randSrc s; randPos := randPos s;
     trace := t |}.

Inductive panic :=
| NilDereference
| IndexOutOfRange
| Int31nInvalidArgument
| SendOnClosedChannel.

Inductive outcome (A : Type) :=
| Done (a : A)
| Panic (p : panic)
| Fatal (msg : error)       (* log.Fatal: the message is logged, then os.Exit(1) *)
| Blocked.                  (* the goroutine never proceeds *)
Arguments Done {A} a.
Arguments Panic {A} p.
Arguments Fatal {A} msg.
Arguments Blocked {A}.

(** ** The monad of the program: state passing with the outcomes above *)

Definition M (A : Type) : Type := state -> outcome (A * state).

#[global] Instance M_ret : MRet M := fun A a s => Done (a, s).

#[global] Instance M_bind : MBind M := fun A B k m s =>
  match m s with
  | Done (a, s') => k a s'
  | Panic p => Panic p
  | Fatal e => Fatal e
  | Blocked => Blocked
  end.

Definition throw {A} (p : panic) : M A := fun _ => Panic p.
Definition logFatal {A} (e : error) : M A := fun _ => Fatal e.
Definition block {A} : M A := fun _ => Blocked.
Definition get : M state := fun s => Done (s, s).
Definition emit (e : event) : M unit :=
  fun s => Done (tt, with_trace (trace s ++ [e]) s).

(** A value that must be there: a nil pointer dereference otherwise. *)
Definition deref {A} (o : option A) : M A :=
  match o with Some a => mret a | None => throw NilDereference end.

(** A [for ... range] over a slice or a map snapshot: the body is run on each
    element in turn, and a panic, an exit or a block ends the loop. *)
Fixpoint forEach {A} (l : list A) (body : A -> M unit) : M unit :=
  match l with
  | [] => mret tt
  | x :: l' => body x;; forEach l' body
  end.

(** ** Heap primitives *)

Definition readConn (c : loc) : M grpcConnection :=
  s ← get; deref (connHeap s !! c).

Definition readPool (p : ploc) : M connection :=
  s ← get; deref (poolHeap s !! p).

Definition writePool (p : ploc) (c : connection) : M unit :=
  fun s => Done (tt, with_poolHeap (<[p := c]> (poolHeap s)) s).

(** [&connection{...}]: a fresh object at the end of the store. *)
Definition newPool (c : connection) : M ploc :=
  fun s => Done (length (poolHeap s), with_poolHeap (poolHeap s ++ [c]) s).

(** [&grpcConnection{...}]. *)
Definition newConn (c : grpcConnection) : M loc :=
  fun s => Done (length (connHeap s), with_connHeap (connHeap s ++ [c]) s).

(** [connectionCache[serviceName] = c]. *)
Definition cacheStore (serviceName : string) (c : ploc) : M unit :=
  fun s => Done (tt, with_cache (<[serviceName := c]> (connectionCache s)) s).

(** ** int32 arithmetic *)

Definition wrap32 (z : Z) : Z := (z + 2 ^ 31) mod 2 ^ 32 - 2 ^ 31.

(** [rand.Int31n(n)]: panics for [n <= 0], otherwise a value of [[0, n)]
    taken from the next draw of the source. *)
Definition Int31n (n : Z) : M Z :=
  if n <=? 0 then throw Int31nInvalidArgument
  else fun s => Done (randSrc s (randPos s) mod n, with_randPos (S (randPos s)) s).

(** [a[i]] for an int32 index: out of range is a panic. *)
Definition index {A} (a : list A) (i : Z) : M A :=
  if i <? 0 then throw IndexOutOfRange
  else match a !! Z.to_nat i with
       | Some x => mret x
       | None => throw IndexOutOfRange
       end.

(** ** time *)

Definition Second : Z := 1000000000.
Definition Minute : Z := 60 * Second.
Definition Sleep (d : Z) : M unit := emit (EvSleep d).

(** ** Channels *)

(** [make(chan *grpcConnection)]: no buffer. *)
Definition make_chan : chan := {| ch_cap := 0; ch_buf := []; ch_closed := false |}.

(** [ch <- x] while no goroutine receives from [ch]: the value is queued when
    the buffer has room, and the sender is parked for good otherwise. *)
Definition chan_send (ch : chan) (x : loc) : M chan :=
  if ch_closed ch then throw SendOnClosedChannel
  else if (length (ch_buf ch) <? ch_cap ch)%nat
       then mret {| ch_cap := ch_cap ch; ch_buf := ch_buf ch ++ [x]; ch_closed := false |}
       else block.

Definition close (ch : chan) : chan :=
  {| ch_cap := ch_cap ch; ch_buf := ch_buf ch; ch_closed := true |}.

(** ** strings.Contains *)

Fixpoint Contains (s substr : string) : bool :=
  if String.prefix substr s then true
  else match s with
       | EmptyString => false
       | String _ s' => Contains s' substr
       end.

(** A loop that carries a local variable from one iteration to the next. *)
Fixpoint forFold {A B} (l : list A) (acc : B) (body : B -> A -> M B) : M B :=
  match l with
  | [] => mret acc
  | x :: l' => acc' ← body acc x; forFold l' acc' body
  end.

(** ** Service Directory: [getService] and [getPodsForSvc] *)

(** The [for _, svc := range svcs.Items] of [getService]: the first service
    whose name contains [serviceName]. *)
Fixpoint findService (items : list Service) (serviceName : string)
  : option Service * option error :=
  match items with
  | [] => (None, Some "cannot find service")
  | svc :: rest =>
      if Contains (svc_Name svc) serviceName then (Some svc, None)
      else findService rest serviceName
  end.

Definition getService (serviceName namespace : string) (k8sClient : Cluster)
  : M (option Service * option error) :=
  let '(svcs, err) := Services_List k8sClient namespace in
  match err with
  | Some e => logFatal e
  | None => mret (findService svcs serviceName)
  end.

Definition getPodsForSvc (svc : option Service) (namespace : string) (k8sClient : Cluster)
  : M (option (list Pod) * option error) :=
  svc' ← deref svc;                       (* svc.Spec.Selector *)
  mret (Pods_List k8sClient namespace (svc_Selector svc')).

(** ** Populate / reconciliation: [updateConnectionPool] *)

(** The inner [for _, p := range currentCache.grpcConnection]: its [continue]
    goes on with the next [p], so both branches of the test end the iteration
    the same way. *)
Definition scanPool (ps : list loc) (ip : string) : M unit :=
  forEach ps (fun p =>
    o ← readConn p;
    if String.eqb (connectionIP o) ip then mret tt else mret tt).

Definition dial (ip : string) : M (option ClientConn * option error) :=
  emit (EvDial ip);;
  s ← get;
  mret (Dial (clientset s) ip).

(** The body of [for _, pod := range pods.Items]. *)
Definition addPod (serviceName namespace : string) (currentCache : ploc) (pod : Pod)
  : M unit :=
  pool ← readPool currentCache;
  scanPool (pool_grpcConnection pool) (PodIP pod);;
  '(conn, err) ← dial (PodIP pod);
  pool ← readPool currentCache;
  let '(grpcConn, err) := NewGrpcClient (functions pool) conn in  (* err is assigned again *)
  match err with
  | Some _ => mret tt                      (* continue *)
  | None =>
      gc ← newConn {| gc_grpcConnection := grpcConn; connectionIP := PodIP pod;
                      serviceName := serviceName; namespace := namespace |};
      pool ← readPool currentCache;
      writePool currentCache
        {| nConnections := wrap32 (nConnections pool + 1);
           functions := functions pool;
           pool_grpcConnection := pool_grpcConnection pool ++ [gc] |}
  end.

Definition updateConnectionPool (serviceName namespace : string) (f : GrpcKubeBalancer)
    (currentCache : ploc) : M ploc :=
  s ← get;
  '(svc, _) ← getService serviceName namespace (clientset s);
  '(pods, _) ← getPodsForSvc svc namespace (clientset s);
  items ← deref pods;                      (* pods.Items *)
  forEach items (addPod serviceName namespace currentCache);;
  mret currentCache.

(** ** Registry: [getConnectionPool] *)

Definition getConnectionPool (serviceName namespace : string) (f : GrpcKubeBalancer)
  : M ploc :=
  s ← get;
  match connectionCache s !! serviceName with
  | None =>
      c ← newPool {| nConnections := 0; functions := f; pool_grpcConnection := [] |};
      cacheStore serviceName c;;
      s' ← get;
      currentCache ← deref (connectionCache s' !! serviceName);
      updateConnectionPool serviceName namespace f currentCache
  | Some currentCache => mret currentCache
  end.

(** ** Public API: [Connect]

    The first component of the result is the [interface{}] returned to the
    caller: the selected [*grpcConnection], or nil. *)
Definition Connect (serviceName namespace : string) (f : GrpcKubeBalancer)
  : M (option loc * option error) :=
  s ← get;
  match connectionCache s !! serviceName with
  | None =>
      conn ← getConnectionPool serviceName namespace f;
      pool ← readPool conn;
      i ← Int31n (nConnections pool);
      grcpConn ← index (pool_grpcConnection pool) i;
      mret (Some grcpConn, None)
  | Some _ => mret (None, None)
  end.

(** ** Health check: [healthCheck] *)

(** The body of [for _, c := range v.grpcConnection]. *)
Definition probe (v : connection) (dirtyConnections : chan) (c : loc) : M chan :=
  o ← readConn c;
  emit (EvPing c);;
  match Ping (functions v) (gc_grpcConnection o) with
  | Some _ => chan_send dirtyConnections c
  | None => mret dirtyConnections
  end.

Definition healthCheck : M unit :=
  Sleep Second;;
  s ← get;
  dirtyConnections ←
    forFold (map_to_list (connectionCache s)) make_chan (fun dirtyConnections kv =>
      v ← readPool kv.2;
      forFold (pool_grpcConnection v) dirtyConnections (probe v));
  emit (EvGo (go_cleanConnections (close dirtyConnections))).

(** ** Eviction: [cleanConnections] *)

(** [for k, gc := range conns.grpcConnection] with its [break]: [rest] is what
    the range has still to visit, [k] the index of its head. *)
Fixpoint removeLoop (conns : ploc) (v : loc) (k : nat) (rest : list loc) : M unit :=
  match rest with
  | [] => mret tt
  | gc :: rest' =>
      if Nat.eqb gc v then
        pool ← readPool conns;
        let a := pool_grpcConnection pool in
        last ← index a (Z.of_nat (length a) - 1);
        (* a[k] = a[len(a)-1] writes the array that conns.grpcConnection views *)
        writePool conns
          {| nConnections := wrap32 (nConnections pool - 1);
             functions := functions pool;
             pool_grpcConnection := <[k := last]> a |}
        (* a = a[:len(a)-1] shortens the local header [a] only; break *)
      else removeLoop conns v (S k) rest'
  end.

(** The body of [for v := range dirtyConnections]. *)
Definition evict (updateList : gmap string (option ploc)) (v : loc)
  : M (gmap string (option ploc)) :=
  vo ← readConn v;
  s ← get;
  let conns := connectionCache s !! serviceName vo in
  let updateList := <[serviceName vo := conns]> updateList in
  p ← deref conns;
  pool ← readPool p;
  removeLoop p v 0 (pool_grpcConnection pool);;
  mret updateList.

(** The call shared by [cleanConnections] and [updatePool]:
    [updateConnectionPool(k, v.grpcConnection[0].namespace, v.functions, v)]. *)
Definition rescan (k : string) (v : option ploc) : M unit :=
  p ← deref v;
  pool ← readPool p;
  first ← index (pool_grpcConnection pool) 0;
  fo ← readConn first;
  updateConnectionPool k (namespace fo) (functions pool) p;;
  mret tt.

(** A [range] over a channel that nobody sends on any more: the queued values,
    then the end of the loop if the channel is closed. *)
Definition cleanConnections (dirtyConnections : chan) : M unit :=
  updateList ← forFold (ch_buf dirtyConnections) ∅ evict;
  (if ch_closed dirtyConnections then mret tt else block);;
  forEach (map_to_list updateList) (fun kv => rescan kv.1 kv.2).

(** ** Full scan: [updatePool] *)

Definition updatePool : M unit :=
  Sleep Minute;;
  s ← get;
  forEach (map_to_list (connectionCache s)) (fun kv => rescan kv.1 (Some kv.2)).

(** ** [poolManager] and the goroutines it starts *)

Definition poolManager : M unit :=
  emit (EvGo go_healthCheck);;
  emit (EvGo go_updatePool).

(** The body a [go] statement runs. *)
Definition run (g : goroutine) : M unit :=
  match g with
  | go_healthCheck => healthCheck
  | go_updatePool => updatePool
  | go_cleanConnections ch => cleanConnections ch
  end.

(** * Specification vocabulary *)

(** [post m s Q]: if [m] returns from [s], the result and the final state
    satisfy [Q].  Returning is proved apart, where a claim needs it. *)
Definition post {A} (m : M A) (s : state) (Q : A -> state -> Prop) : Prop :=
  forall a s', m s = Done (a, s') -> Q a s'.

(** The [time.Sleep] calls in a trace. *)
Fixpoint sleeps (t : list event) : nat :=
  match t with
  | [] => 0
  | EvSleep _ :: t' => S (sleeps t')
  | _ :: t' => sleeps t'
  end.

(** [grows s s']: from [s] to [s'] the registry and the cluster are the same,
    no object was dropped or changed, every pool kept its capability and its
    slice as a prefix of the new one, and nobody slept. *)
Record grows (s s' : state) : Prop := {
  grows_cache : connectionCache s' = connectionCache s;
  grows_cluster : clientset s' = clientset s;
  grows_conns : connHeap s `prefix_of` connHeap s';
  grows_len : length (poolHeap s') = length (poolHeap s);
  grows_pools : forall q pool, poolHeap s !! q = Some pool ->
    exists pool', poolHeap s' !! q = Some pool' /\
      functions pool' = functions pool /\
      pool_grpcConnection pool `prefix_of` pool_grpcConnection pool';
  grows_trace : exists evs : list event, trace s' = trace s ++ evs /\ sleeps evs = 0%nat
}.

(** Every pointer held by the registry or by a pool refers to an object, as
    in any state a Go program can be in. *)
Record wf (s : state) : Prop := {
  wf_cache : forall k p, connectionCache s !! k = Some p -> is_Some (poolHeap s !! p);
  wf_pools : forall p pool c, poolHeap s !! p = Some pool ->
    c ∈ pool_grpcConnection pool -> is_Some (connHeap s !! c)
}.

(** The pool [currentCache] after [addPod] has appended a connection to the
    address [ip] with client [h]. *)
Definition appended (serviceName namespace : string) (currentCache : ploc)
    (pool : connection) (ip : string) (h : option Handle) (s : state) : state :=
  with_poolHeap
    (<[currentCache :=
        {| nConnections := wrap32 (nConnections pool + 1);
           functions := functions pool;
           pool_grpcConnection := pool_grpcConnection pool ++ [length (connHeap s)] |}]>
       (poolHeap s))
    (with_connHeap
       (connHeap s ++ [{| gc_grpcConnection := h; connectionIP := ip;
                          serviceName := serviceName; namespace := namespace |}])
       (with_trace (trace s ++ [EvDial ip]) s)).

(** The addresses of a pool's connections, in slice order. *)
Definition addresses (s : state) (pool : connection) : list (option string) :=
  map (fun c => connectionIP <$> connHeap s !! c) (pool_grpcConnection pool).

(** [NewGrpcClient] returns a nil error for that pod, whatever [grpc.Dial]
    said. *)
Definition clientOk (f : GrpcKubeBalancer) (k8s : Cluster) (pod : Pod) : bool :=
  match NewGrpcClient f (Dial k8s (PodIP pod)).1 with
  | (_, None) => true
  | (_, Some _) => false
  end.

(** The probe of connection [c] of pool [v] reports an error. *)
Definition dead (s : state) (v : connection) (c : loc) : bool :=
  match connHeap s !! c with
  | Some o => match Ping (functions v) (gc_grpcConnection o) with
              | Some _ => true
              | None => false
              end
  | None => false
  end.

(** No pool's slice is shorter in [s'] than in [s]. *)
Definition neverShrinks (s s' : state) : Prop :=
  forall q pool, poolHeap s !! q = Some pool ->
    exists pool', poolHeap s' !! q = Some pool' /\
      (length (pool_grpcConnection pool) <= length (pool_grpcConnection pool'))%nat.

(** * Sample clusters, capabilities and states *)

Definition backend : Service :=
  {| svc_Name := "backend-grpc"; svc_Selector := [("app", "backend")] |}.

(** A directory with the one service [backend] and pods at [ips];
    [grpc.Dial] fails for the addresses in [undialable]. *)
Definition clusterOf (ips undialable : list string) : Cluster :=
  {| Services_List := fun _ => ([backend], None);
     Pods_List := fun _ _ => (Some (map Build_Pod ips), None);
     Dial := fun ip =>
       if existsb (String.eqb ip) undialable then (None, Some "dial failed")
       else (Some {| cc_target := ip |}, None) |}.

(** The directory cannot be reached. *)
Definition unreachable : Cluster :=
  {| Services_List := fun _ => ([], Some "connection refused");
     Pods_List := fun _ _ => (Some [], Some "connection refused");
     Dial := fun ip => (Some {| cc_target := ip |}, None) |}.

(** A capability in the style of a generated gRPC stub: the constructor wraps
    whatever connection it is given; [pingFails] is the answer of the probe. *)
Definition stub (pingFails : bool) : GrpcKubeBalancer :=
  {| NewGrpcClient := fun _ => (Some 1%nat, None);
     Ping := fun _ => if pingFails then Some "ping failed" else None |}.

(** A capability whose constructor rejects a missing connection and the
    address 10.0.0.3. *)
Definition strict : GrpcKubeBalancer :=
  {| NewGrpcClient := fun conn =>
       match conn with
       | Some c => if (cc_target c =? "10.0.0.3")%string
                   then (None, Some "client construction failed")
                   else (Some 1%nat, None)
       | None => (None, Some "no connection")
       end;
     Ping := fun _ => None |}.

(** The process right after [init]: nothing cached. *)
Definition boot (k8s : Cluster) : state :=
  {| connectionCache := ∅; poolHeap := []; connHeap := []; clientset := k8s;
     randSrc := fun n => Z.of_nat n; randPos := 0; trace := [] |}.

Definition conn_at (ip : string) : grpcConnection :=
  {| gc_grpcConnection := Some 1%nat; connectionIP := ip;
     serviceName := "backend"; namespace := "prod" |}.

(** One pool for "backend" holding connections to [ips], as the first
    [Connect] leaves it. *)
Definition warm (f : GrpcKubeBalancer) (ips : list string) (k8s : Cluster) : state :=
  {| connectionCache := {[ "backend" := 0%nat ]};
     poolHeap := [ {| nConnections := Z.of_nat (length ips); functions := f;
                      pool_grpcConnection := seq 0 (length ips) |} ];
     connHeap := map conn_at ips;
     clientset := k8s;
     randSrc := fun n => Z.of_nat n; randPos := 1;
     trace := map EvDial ips |}.

(** Some connection of the pool behind a registry entry has a failing probe. *)
Definition poolDead (s : state) (kv : string * nat) : bool :=
  match poolHeap s !! kv.2 with
  | Some v => existsb (dead s v) (pool_grpcConnection v)
  | None => false
  end.

(** The probes of one pass over the registry entries [kvs]. *)
Definition pings (s : state) (kvs : list (string * nat)) : list event :=
  flat_map (fun kv => match poolHeap s !! kv.2 with
                      | Some v => map EvPing (pool_grpcConnection v)
                      | None => []
                      end) kvs.

(** [sub] occurs in [s]: what [strings.Contains(s, sub)] decides. *)
Definition occursIn (sub s : string) : Prop :=
  exists pre post : string, s = (pre ++ sub ++ post)%string.

(** The connections one populate builds from a pod list: one per pod for
    which [NewGrpcClient] returns a nil error, in the order listed. *)
Definition built (serviceName namespace : string) (f : GrpcKubeBalancer) (k8s : Cluster)
    (pods : list Pod) : list grpcConnection :=
  map (fun pod =>
         {| gc_grpcConnection := (NewGrpcClient f (Dial k8s (PodIP pod)).1).1;
            connectionIP := PodIP pod;
            serviceName := serviceName; namespace := namespace |})
      (List.filter (clientOk f k8s) pods).

(** The state after the loop of [updateConnectionPool] over [pods], written
    out: the new objects at the end of the store, their locations at the end
    of the slice, one increment of the count for each, one dial per pod. *)
Definition populated (serviceName namespace : string) (currentCache : ploc)
    (pool : connection) (pods : list Pod) (s : state) : state :=
  let news := built serviceName namespace (functions pool) (clientset s) pods in
  with_poolHeap
    (<[currentCache :=
        {| nConnections :=
             Nat.iter (length news) (fun n => wrap32 (n + 1)) (nConnections pool);
           functions := functions pool;
           pool_grpcConnection :=
             pool_grpcConnection pool ++ seq (length (connHeap s)) (length news) |}]>
       (poolHeap s))
    (with_connHeap (connHeap s ++ news)
       (with_trace (trace s ++ map (fun pod => EvDial (PodIP pod)) pods) s)).

(** The registry after [getConnectionPool] has made and stored the empty pool
    of a service it did not know. *)
Definition registered (serviceName : string) (f : GrpcKubeBalancer) (s : state) : state :=
  with_cache (<[serviceName := length (poolHeap s)]> (connectionCache s))
    (with_poolHeap
       (poolHeap s ++ [ {| nConnections := 0; functions := f; pool_grpcConnection := [] |} ])
       s).

(** Every connection of [pool] is tagged with the service name [k], and all
    carry the same namespace. *)
Definition poolTagged (s : state) (k : string) (pool : connection) : Prop :=
  exists ns, forall c, c ∈ pool_grpcConnection pool ->
    exists o, connHeap s !! c = Some o /\ serviceName o = k /\ namespace o = ns.

(** The shape of the registry that the code builds: pointers are valid, no
    pool is registered under two names, and the connections of the pool
    registered for a service carry that service's name and one namespace. *)
Record consistent (s : state) : Prop := {
  cons_wf : wf s;
  cons_inj : forall k1 k2 p,
    connectionCache s !! k1 = Some p -> connectionCache s !! k2 = Some p -> k1 = k2;
  cons_tagged : forall k p pool,
    connectionCache s !! k = Some p -> poolHeap s !! p = Some pool -> poolTagged s k pool
}.

(** * Reasoning principles *)

Section monad_lemmas.
Context {A B : Type}.
Implicit Types (m : M A) (k : A -> M B) (s : state).

Lemma bind_Done m k s a s1 :
  m s = Done (a, s1) -> (m ≫= k) s = k a s1.
Proof. intros H. unfold mbind, M_bind. by rewrite H. Qed.

Lemma bind_Done_inv m k s r :
  (m ≫= k) s = Done r -> exists a s1, m s = Done (a, s1) /\ k a s1 = Done r.
Proof.
  unfold mbind, M_bind. destruct (m s) as [[a s1]| | |]; try discriminate.
  intros H. by exists a, s1.
Qed.

Lemma bind_Panic m k s p : m s = Panic p -> (m ≫= k) s = Panic p.
Proof. intros H. unfold mbind, M_bind. by rewrite H. Qed.

Lemma bind_Fatal m k s e : m s = Fatal e -> (m ≫= k) s = Fatal e.
Proof. intros H. unfold mbind, M_bind. by rewrite H. Qed.

Lemma bind_Blocked m k s : m s = Blocked -> (m ≫= k) s = Blocked.
Proof. intros H. unfold mbind, M_bind. by rewrite H. Qed.
End monad_lemmas.


Lemma post_ret {A} (a : A) s (Q : A -> state -> Prop) : Q a s -> post (mret a) s Q.
Proof. intros HQ a' s' [= <- <-]. exact HQ. Qed.

Lemma post_bind {A B} (m : M A) (k : A -> M B) s (Q : B -> state -> Prop) :
  post m s (fun a s1 => post (k a) s1 Q) -> post (m ≫= k) s Q.
Proof.
  intros Hm b s' Hb. apply bind_Done_inv in Hb as (a & s1 & H1 & H2).
  exact (Hm a s1 H1 b s' H2).
Qed.

Lemma post_mono {A} (m : M A) s (Q Q' : A -> state -> Prop) :
  post m s Q -> (forall a s', Q a s' -> Q' a s') -> post m s Q'.
Proof. intros H HQ a s' Hd. apply HQ, H, Hd. Qed.

Lemma post_get s (Q : state -> state -> Prop) : Q s s -> post get s Q.
Proof. intros HQ a s' [= <- <-]. exact HQ. Qed.

Lemma post_deref {A} (o : option A) s (Q : A -> state -> Prop) :
  (forall a, o = Some a -> Q a s) -> post (deref o) s Q.
Proof. intros HQ a s'. destruct o; [intros [= <- <-]; by apply HQ | discriminate]. Qed.

Lemma post_forEach {A} (I : state -> Prop) (l : list A) (body : A -> M unit) s :
  (forall x s1, x ∈ l -> I s1 -> post (body x) s1 (fun _ => I)) ->
  I s -> post (forEach l body) s (fun _ => I).
Proof.
  revert s. induction l as [|x l IH]; intros s Hbody HI; simpl.
  - by apply post_ret.
  - apply post_bind. eapply post_mono.
    + apply Hbody; [left | exact HI].
    + intros u s1 H1. apply IH; [| exact H1].
      intros y s2 Hy. apply Hbody. by right.
Qed.

Lemma post_forFold {A B} (I : B -> state -> Prop) (l : list A) (acc : B)
    (body : B -> A -> M B) s :
  (forall b x s1, x ∈ l -> I b s1 -> post (body b x) s1 I) ->
  I acc s -> post (forFold l acc body) s I.
Proof.
  revert acc s. induction l as [|x l IH]; intros acc s Hbody HI; simpl.
  - by apply post_ret.
  - apply post_bind. eapply post_mono.
    + apply Hbody; [left | exact HI].
    + intros b s1 H1. apply IH; [| exact H1].
      intros b' y s2 Hy. apply Hbody. by right.
Qed.

Lemma post_Done {A} (m : M A) s a s1 (Q : A -> state -> Prop) :
  m s = Done (a, s1) -> Q a s1 -> post m s Q.
Proof. intros Hm HQ a' s' Hd. rewrite Hm in Hd. by injection Hd as <- <-. Qed.

Lemma post_readPool p s (Q : connection -> state -> Prop) :
  (forall c, poolHeap s !! p = Some c -> Q c s) -> post (readPool p) s Q.
Proof. intros HQ. apply post_bind, post_get, post_deref, HQ. Qed.

Lemma post_readConn c s (Q : grpcConnection -> state -> Prop) :
  (forall o, connHeap s !! c = Some o -> Q o s) -> post (readConn c) s Q.
Proof. intros HQ. apply post_bind, post_get, post_deref, HQ. Qed.

Lemma post_index {A} (a : list A) i s (Q : A -> state -> Prop) :
  (forall x, 0 <= i -> a !! Z.to_nat i = Some x -> Q x s) -> post (index a i) s Q.
Proof.
  intros HQ x s'. unfold index. destruct (Z.ltb_spec i 0); [discriminate|].
  destruct (a !! Z.to_nat i) as [y|] eqn:Hy; [|discriminate].
  intros [= <- <-]. by apply HQ.
Qed.

Ltac wp_step :=
  lazymatch goal with
  | |- post (_ ≫= _) _ _ => apply post_bind
  | |- post (mret _) _ _ => apply post_ret
  | |- post get _ _ => apply post_get
  | |- post (deref _) _ _ => apply post_deref; intros ? ?
  | |- post (readPool _) _ _ => apply post_readPool; intros ? ?
  | |- post (readConn _) _ _ => apply post_readConn; intros ? ?
  | |- post (index _ _) _ _ => apply post_index; intros ? ? ?
  | |- post (emit _) _ _ => eapply post_Done; [reflexivity |]
  | |- post (writePool _ _) _ _ => eapply post_Done; [reflexivity |]
  | |- post (newConn _) _ _ => eapply post_Done; [reflexivity |]
  | |- post (newPool _) _ _ => eapply post_Done; [reflexivity |]
  | |- post (cacheStore _ _) _ _ => eapply post_Done; [reflexivity |]
  end; cbv beta.

Ltac wp := repeat wp_step.

(** ** What a run leaves in place *)


Lemma sleeps_app t1 t2 : sleeps (t1 ++ t2) = (sleeps t1 + sleeps t2)%nat.
Proof. induction t1 as [|[] t1 IH]; simpl; lia. Qed.


Lemma grows_refl s : grows s s.
Proof.
  split; try done.
  - intros q pool Hq. by exists pool.
  - exists []. by rewrite app_nil_r.
Qed.

Lemma grows_trans s1 s2 s3 : grows s1 s2 -> grows s2 s3 -> grows s1 s3.
Proof.
  intros [C1 K1 H1 L1 P1 (e1 & T1 & Z1)] [C2 K2 H2 L2 P2 (e2 & T2 & Z2)]. split.
  - congruence.
  - congruence.
  - by etrans.
  - congruence.
  - intros q pool Hq. destruct (P1 q pool Hq) as (pool1 & Hq1 & F1 & X1).
    destruct (P2 q pool1 Hq1) as (pool2 & Hq2 & F2 & X2).
    exists pool2. split; [done|]. split; [congruence | by etrans].
  - exists (e1 ++ e2). rewrite T2, T1, <- app_assoc, sleeps_app. split; [done | lia].
Qed.

Lemma post_grows_bind {A B} (m : M A) (k : A -> M B) s0 s :
  grows s0 s ->
  post m s (fun _ s1 => grows s s1) ->
  (forall a s1, grows s0 s1 -> post (k a) s1 (fun _ s2 => grows s0 s2)) ->
  post (m ≫= k) s (fun _ s2 => grows s0 s2).
Proof.
  intros H0 Hm Hk. apply post_bind. eapply post_mono; [exact Hm|].
  intros a s1 H1. apply Hk. by eapply grows_trans.
Qed.

Lemma scanPool_same ps ip s : post (scanPool ps ip) s (fun _ s' => s' = s).
Proof.
  unfold scanPool. apply (post_forEach (fun s' => s' = s)); [|done].
  intros p s1 _ ->. wp. by destruct (_ =? _)%string; wp.
Qed.

Lemma addPod_grows serviceName namespace currentCache pod s :
  post (addPod serviceName namespace currentCache pod) s (fun _ s' => grows s s').
Proof.
  unfold addPod. wp. eapply post_mono; [apply scanPool_same|].
  intros u ? ->. unfold dial. wp.
  destruct (Dial _ _) as [conn err]. wp. simpl in H0.
  destruct (NewGrpcClient _ _) as [grpcConn [e|]]; wp.
  - split; simpl; try done.
    + intros q pool Hq. by exists pool.
    + by exists [EvDial (PodIP pod)].
  - simpl in H1. split; simpl; try done.
    + by apply prefix_app_r.
    + by rewrite length_insert.
    + intros q pool Hq. destruct (decide (q = currentCache)) as [->|Hne].
      * eexists. split.
        { apply list_lookup_insert_eq. by eapply lookup_lt_Some. }
        simpl. rewrite Hq in H1. injection H1 as <-. split; [done | by apply prefix_app_r].
      * exists pool. by rewrite list_lookup_insert_ne.
    + by exists [EvDial (PodIP pod)].
Qed.

Lemma getService_same serviceName namespace k8sClient s :
  post (getService serviceName namespace k8sClient) s (fun _ s' => s' = s).
Proof.
  unfold getService. destruct (Services_List _ _) as [svcs [e|]].
  - intros a s' [=].
  - by wp.
Qed.

Lemma getPodsForSvc_same svc namespace k8sClient s :
  post (getPodsForSvc svc namespace k8sClient) s (fun _ s' => s' = s).
Proof. unfold getPodsForSvc. by wp. Qed.

Lemma forEach_grows {A} (l : list A) (body : A -> M unit) s0 s :
  (forall x s1, post (body x) s1 (fun _ s2 => grows s1 s2)) ->
  grows s0 s -> post (forEach l body) s (fun _ s' => grows s0 s').
Proof.
  intros Hbody. apply (post_forEach (grows s0)).
  intros x s1 _ H1. eapply post_mono; [apply Hbody|].
  intros u s2 H2. by eapply grows_trans.
Qed.

Lemma updateConnectionPool_grows serviceName namespace f currentCache s :
  post (updateConnectionPool serviceName namespace f currentCache) s
       (fun p s' => p = currentCache /\ grows s s').
Proof.
  unfold updateConnectionPool. wp.
  eapply post_mono; [apply getService_same|]. intros [svc e] ? ->.
  wp. eapply post_mono; [apply getPodsForSvc_same|]. intros [pods e'] ? ->.
  wp. eapply post_mono.
  - apply forEach_grows; [|apply grows_refl]. intros pod s1. apply addPod_grows.
  - intros u s1 H1. by wp.
Qed.

Lemma rescan_grows k v s : post (rescan k v) s (fun _ s' => grows s s').
Proof.
  unfold rescan. wp. eapply post_mono; [apply updateConnectionPool_grows|].
  intros p s1 [_ Hg]. by wp.
Qed.

Lemma updatePool_grows s s' :
  updatePool s = Done (tt, s') ->
  grows (with_trace (trace s ++ [EvSleep Minute]) s) s'.
Proof.
  unfold updatePool, Sleep. intros H.
  apply bind_Done_inv in H as ([] & s1 & Hs & H). injection Hs as <-.
  apply bind_Done_inv in H as (s2 & ? & [= <- <-] & H).
  eapply forEach_grows; [| apply grows_refl | exact H].
  intros kv s1. apply rescan_grows.
Qed.

(** ** Exact results of the steps *)

Lemma readPool_Done p s c : poolHeap s !! p = Some c -> readPool p s = Done (c, s).
Proof. intros H. unfold readPool. erewrite bind_Done by reflexivity. by rewrite H. Qed.

Lemma readConn_Done c s o : connHeap s !! c = Some o -> readConn c s = Done (o, s).
Proof. intros H. unfold readConn. erewrite bind_Done by reflexivity. by rewrite H. Qed.

Lemma scanPool_Done ps ip s :
  (forall c, c ∈ ps -> is_Some (connHeap s !! c)) -> scanPool ps ip s = Done (tt, s).
Proof.
  unfold scanPool. induction ps as [|p ps IH]; intros Hps; [done|].
  destruct (Hps p) as [o Ho]; [by left|]. simpl.
  erewrite bind_Done; [apply IH; intros c Hc; apply Hps; by right|].
  erewrite bind_Done by (by apply readConn_Done). by destruct (_ =? _)%string.
Qed.

Lemma addPod_client_ok serviceName namespace currentCache pod s pool h :
  poolHeap s !! currentCache = Some pool ->
  (forall c, c ∈ pool_grpcConnection pool -> is_Some (connHeap s !! c)) ->
  NewGrpcClient (functions pool) (Dial (clientset s) (PodIP pod)).1 = (h, None) ->
  addPod serviceName namespace currentCache pod s
  = Done (tt, appended serviceName namespace currentCache pool (PodIP pod) h s).
Proof.
  intros Hp Hc Hnew. unfold addPod.
  erewrite bind_Done by (by apply readPool_Done).
  erewrite bind_Done by (by apply scanPool_Done).
  unfold dial. erewrite bind_Done.
  2:{ erewrite bind_Done by reflexivity. erewrite bind_Done by reflexivity. reflexivity. }
  destruct (Dial _ _) as [conn err]. simpl in Hnew.
  erewrite bind_Done by (by apply readPool_Done). rewrite Hnew.
  erewrite bind_Done by reflexivity.
  erewrite bind_Done by (by apply readPool_Done). reflexivity.
Qed.

Lemma addPod_client_fails serviceName namespace currentCache pod s pool h e :
  poolHeap s !! currentCache = Some pool ->
  (forall c, c ∈ pool_grpcConnection pool -> is_Some (connHeap s !! c)) ->
  NewGrpcClient (functions pool) (Dial (clientset s) (PodIP pod)).1 = (h, Some e) ->
  addPod serviceName namespace currentCache pod s
  = Done (tt, with_trace (trace s ++ [EvDial (PodIP pod)]) s).
Proof.
  intros Hp Hc Hnew. unfold addPod.
  erewrite bind_Done by (by apply readPool_Done).
  erewrite bind_Done by (by apply scanPool_Done).
  unfold dial. erewrite bind_Done.
  2:{ erewrite bind_Done by reflexivity. erewrite bind_Done by reflexivity. reflexivity. }
  destruct (Dial _ _) as [conn err]. simpl in Hnew.
  erewrite bind_Done by (by apply readPool_Done). by rewrite Hnew.
Qed.

(** ** Well-formed states stay well-formed, and populate returns *)

Lemma wf_with_trace t s : wf s -> wf (with_trace t s).
Proof. intros [Hc Hp]. by split. Qed.

Lemma wf_appended serviceName namespace currentCache pool ip h s :
  wf s -> poolHeap s !! currentCache = Some pool ->
  wf (appended serviceName namespace currentCache pool ip h s).
Proof.
  intros [Hc Hp] Hpool. split; simpl.
  - intros k p Hk. apply lookup_lt_is_Some. rewrite length_insert.
    apply lookup_lt_is_Some. by eapply Hc.
  - intros p pool' c Hp' Hin. apply lookup_lt_is_Some. rewrite length_app. simpl.
    destruct (decide (p = currentCache)) as [->|Hne].
    + rewrite list_lookup_insert_eq in Hp' by (by eapply lookup_lt_Some).
      injection Hp' as <-. simpl in Hin. apply elem_of_app in Hin as [Hin|Hin].
      * apply (Hp _ _ _ Hpool), lookup_lt_is_Some in Hin. lia.
      * apply list_elem_of_singleton in Hin as ->. lia.
    + rewrite list_lookup_insert_ne in Hp' by done.
      apply (Hp _ _ _ Hp'), lookup_lt_is_Some in Hin. lia.
Qed.

Lemma addPod_returns serviceName namespace currentCache pod s :
  wf s -> is_Some (poolHeap s !! currentCache) ->
  exists s', addPod serviceName namespace currentCache pod s = Done (tt, s') /\
             wf s' /\ is_Some (poolHeap s' !! currentCache).
Proof.
  intros Hwf [pool Hpool].
  destruct (NewGrpcClient (functions pool) (Dial (clientset s) (PodIP pod)).1)
    as [h [e|]] eqn:Hnew.
  - eexists. split; [eapply addPod_client_fails; eauto; intros c Hc; eapply wf_pools; eauto|].
    split; [by apply wf_with_trace | by exists pool].
  - eexists. split; [eapply addPod_client_ok; eauto; intros c Hc; eapply wf_pools; eauto|].
    split; [by apply wf_appended|]. simpl.
    apply lookup_lt_is_Some. rewrite length_insert. by eapply lookup_lt_Some.
Qed.

Lemma forEach_addPod_returns serviceName namespace currentCache pods s :
  wf s -> is_Some (poolHeap s !! currentCache) ->
  exists s', forEach pods (addPod serviceName namespace currentCache) s = Done (tt, s') /\
             wf s'.
Proof.
  revert s. induction pods as [|pod pods IH]; intros s Hwf Hp; simpl.
  - by exists s.
  - destruct (addPod_returns serviceName namespace currentCache pod s Hwf Hp)
      as (s1 & H1 & Hwf1 & Hp1).
    destruct (IH s1 Hwf1 Hp1) as (s2 & H2 & Hwf2).
    exists s2. split; [|done]. by erewrite bind_Done by exact H1.
Qed.

Lemma getService_found serviceName namespace k8sClient s svcs :
  Services_List k8sClient namespace = (svcs, None) ->
  getService serviceName namespace k8sClient s = Done (findService svcs serviceName, s).
Proof. intros H. unfold getService. by rewrite H. Qed.

Lemma getService_unreachable serviceName namespace k8sClient s svcs e :
  Services_List k8sClient namespace = (svcs, Some e) ->
  getService serviceName namespace k8sClient s = Fatal e.
Proof. intros H. unfold getService. by rewrite H. Qed.

(** With the directory answering, the service found and the pod list there,
    [updateConnectionPool] returns its argument. *)
Lemma updateConnectionPool_returns serviceName namespace f currentCache s svcs svc e pods e' :
  wf s -> is_Some (poolHeap s !! currentCache) ->
  Services_List (clientset s) namespace = (svcs, None) ->
  findService svcs serviceName = (Some svc, e) ->
  Pods_List (clientset s) namespace (svc_Selector svc) = (Some pods, e') ->
  exists s', updateConnectionPool serviceName namespace f currentCache s
             = Done (currentCache, s') /\ wf s'.
Proof.
  intros Hwf Hp Hl Hf Hpods.
  destruct (forEach_addPod_returns serviceName namespace currentCache pods s Hwf Hp)
    as (s' & Hs' & Hwf').
  exists s'. split; [|done]. unfold updateConnectionPool.
  erewrite bind_Done by reflexivity.
  erewrite bind_Done by (by apply getService_found). rewrite Hf.
  unfold getPodsForSvc. erewrite bind_Done.
  2:{ erewrite bind_Done by reflexivity. reflexivity. }
  rewrite Hpods. erewrite bind_Done by reflexivity.
  by erewrite bind_Done by exact Hs'.
Qed.

(** ** A populate in which no client can be built *)

Lemma with_trace_same s : with_trace (trace s) s = s.
Proof. by destruct s. Qed.

Lemma forEach_addPod_none_ok serviceName namespace currentCache pods s pool :
  poolHeap s !! currentCache = Some pool ->
  (forall c, c ∈ pool_grpcConnection pool -> is_Some (connHeap s !! c)) ->
  (forall pod, pod ∈ pods -> clientOk (functions pool) (clientset s) pod = false) ->
  forEach pods (addPod serviceName namespace currentCache) s
  = Done (tt, with_trace (trace s ++ map (fun pod => EvDial (PodIP pod)) pods) s).
Proof.
  revert s. induction pods as [|pod pods IH]; intros s Hp Hc Hno; simpl.
  - by rewrite app_nil_r, with_trace_same.
  - assert (Hpod : clientOk (functions pool) (clientset s) pod = false) by (apply Hno; by left).
    unfold clientOk in Hpod.
    destruct (NewGrpcClient _ _) as [h [e|]] eqn:Hnew; [|discriminate].
    erewrite bind_Done by (by eapply addPod_client_fails).
    rewrite IH; try done.
    + unfold with_trace; simpl. by rewrite <- app_assoc.
    + intros pod' Hpod'. apply Hno. by right.
Qed.

(** ** The addresses a populate leaves in the pool *)

Lemma addresses_appended serviceName namespace currentCache pool ip h s :
  (forall c, c ∈ pool_grpcConnection pool -> is_Some (connHeap s !! c)) ->
  addresses (appended serviceName namespace currentCache pool ip h s)
    {| nConnections := wrap32 (nConnections pool + 1);
       functions := functions pool;
       pool_grpcConnection := pool_grpcConnection pool ++ [length (connHeap s)] |}
  = addresses s pool ++ [Some ip].
Proof.
  intros Hc. unfold addresses. simpl. rewrite map_app. f_equal.
  - apply map_ext_in. intros c Hin. apply list_elem_of_In, Hc, lookup_lt_is_Some in Hin.
    by rewrite lookup_app_l.
  - simpl. rewrite lookup_app_r by done. by rewrite Nat.sub_diag.
Qed.

Lemma forEach_addPod_addresses serviceName namespace currentCache pods s pool :
  wf s -> poolHeap s !! currentCache = Some pool ->
  exists s' pool',
    forEach pods (addPod serviceName namespace currentCache) s = Done (tt, s') /\
    wf s' /\ poolHeap s' !! currentCache = Some pool' /\
    functions pool' = functions pool /\ clientset s' = clientset s /\
    connectionCache s' = connectionCache s /\
    addresses s' pool'
    = addresses s pool ++
      map (fun pod => Some (PodIP pod))
          (List.filter (clientOk (functions pool) (clientset s)) pods).
Proof.
  revert s pool. induction pods as [|pod pods IH]; intros s pool Hwf Hp; simpl.
  - exists s, pool. by rewrite app_nil_r.
  - assert (Hc : forall c, c ∈ pool_grpcConnection pool -> is_Some (connHeap s !! c))
      by (intros c Hc; by eapply wf_pools).
    assert (Hok : clientOk (functions pool) (clientset s) pod
                  = match (NewGrpcClient (functions pool) (Dial (clientset s) (PodIP pod)).1).2
                    with None => true | Some _ => false end).
    { unfold clientOk. by destruct (NewGrpcClient _ _) as [? []]. }
    rewrite Hok.
    destruct (NewGrpcClient (functions pool) (Dial (clientset s) (PodIP pod)).1)
      as [h [e|]] eqn:Hnew; simpl.
    + destruct (IH (with_trace (trace s ++ [EvDial (PodIP pod)]) s) pool)
        as (s' & pool' & Hrun & Hwf' & Hp' & Hf' & Hk' & Hm' & Ha'); [by apply wf_with_trace|done|].
      exists s', pool'. split; [|done].
      by erewrite bind_Done by (by eapply addPod_client_fails).
    + set (s1 := appended serviceName namespace currentCache pool (PodIP pod) h s).
      set (pool1 := {| nConnections := wrap32 (nConnections pool + 1);
                       functions := functions pool;
                       pool_grpcConnection := pool_grpcConnection pool ++ [length (connHeap s)] |}).
      assert (Hp1 : poolHeap s1 !! currentCache = Some pool1).
      { simpl. apply list_lookup_insert_eq. by eapply lookup_lt_Some. }
      destruct (IH s1 pool1) as (s' & pool' & Hrun & Hwf' & Hp' & Hf' & Hk' & Hm' & Ha');
        [by apply wf_appended|done|].
      exists s', pool'. split.
      { by erewrite bind_Done by (by eapply addPod_client_ok). }
      repeat (split; [done|]). rewrite Ha'. subst s1 pool1.
      rewrite addresses_appended by done. simpl. by rewrite <- app_assoc.
Qed.

(** ** Eviction *)

Lemma neverShrinks_refl s : neverShrinks s s.
Proof. intros q pool Hq. by exists pool. Qed.

Lemma neverShrinks_trans s1 s2 s3 :
  neverShrinks s1 s2 -> neverShrinks s2 s3 -> neverShrinks s1 s3.
Proof.
  intros H12 H23 q pool Hq. destruct (H12 q pool Hq) as (pool2 & Hq2 & L2).
  destruct (H23 q pool2 Hq2) as (pool3 & Hq3 & L3). exists pool3. split; [done | lia].
Qed.

Lemma grows_neverShrinks s s' : grows s s' -> neverShrinks s s'.
Proof.
  intros Hg q pool Hq. destruct (grows_pools _ _ Hg q pool Hq) as (pool' & Hq' & _ & Hpre).
  exists pool'. split; [done|]. by apply prefix_length.
Qed.

(** Writing a slice of the same length over a pool shrinks nothing. *)
Lemma writePool_neverShrinks p pool new s :
  poolHeap s !! p = Some pool ->
  length (pool_grpcConnection new) = length (pool_grpcConnection pool) ->
  neverShrinks s (with_poolHeap (<[p := new]> (poolHeap s)) s).
Proof.
  intros Hp Hlen q pool' Hq. simpl. destruct (decide (q = p)) as [->|Hne].
  - exists new. split; [apply list_lookup_insert_eq; by eapply lookup_lt_Some|].
    rewrite Hq in Hp. injection Hp as ->. lia.
  - exists pool'. by rewrite list_lookup_insert_ne.
Qed.

Lemma removeLoop_neverShrinks conns v k rest s :
  post (removeLoop conns v k rest) s (fun _ s' => neverShrinks s s').
Proof.
  revert k. induction rest as [|gc rest IH]; intros k; simpl.
  - wp. apply neverShrinks_refl.
  - destruct (gc =? v)%nat; [|apply IH].
    wp. eapply writePool_neverShrinks; [eassumption|]. simpl. by rewrite length_insert.
Qed.

Lemma evict_neverShrinks updateList v s :
  post (evict updateList v) s (fun _ s' => neverShrinks s s').
Proof.
  unfold evict. wp. eapply post_mono; [apply removeLoop_neverShrinks|].
  intros u s1 Hkeep. by wp.
Qed.

Lemma index_last {A} (a : list A) x s :
  last a = Some x -> index a (Z.of_nat (length a) - 1) s = Done (x, s).
Proof.
  intros Hx. unfold index.
  assert (length a <> 0%nat) by (destruct a; [discriminate | done]).
  destruct (Z.ltb_spec (Z.of_nat (length a) - 1) 0); [lia|].
  replace (Z.to_nat (Z.of_nat (length a) - 1)) with (pred (length a)) by lia.
  by rewrite <- last_lookup, Hx.
Qed.

(** When [v] is among the elements still to visit, the loop stops at its
    first occurrence: the count goes down by one, the last element is copied
    over that slot, and the slice keeps its length. *)
Lemma removeLoop_found conns v k rest s pool x :
  poolHeap s !! conns = Some pool ->
  last (pool_grpcConnection pool) = Some x ->
  v ∈ rest ->
  exists k',
    removeLoop conns v k rest s
    = Done (tt, with_poolHeap
                  (<[conns := {| nConnections := wrap32 (nConnections pool - 1);
                                 functions := functions pool;
                                 pool_grpcConnection := <[k' := x]> (pool_grpcConnection pool) |}]>
                     (poolHeap s)) s).
Proof.
  intros Hp Hx. revert k. induction rest as [|gc rest IH]; intros k Hin.
  - by apply elem_of_nil in Hin.
  - simpl. destruct (Nat.eqb_spec gc v) as [->|Hne].
    + exists k. erewrite bind_Done by (by apply readPool_Done).
      by erewrite bind_Done by (by apply index_last).
    + apply elem_of_cons in Hin as [->|Hin]; [done|]. by apply IH.
Qed.

Lemma wrap32_pred_ne n : wrap32 (n - 1) <> n.
Proof.
  unfold wrap32. change (2 ^ 31) with 2147483648. change (2 ^ 32) with 4294967296.
  pose proof (Z.div_mod (n - 1 + 2147483648) 4294967296 ltac:(lia)).
  pose proof (Z.mod_pos_bound (n - 1 + 2147483648) 4294967296 ltac:(lia)). lia.
Qed.

(** ** The health-check pass *)

(** A send on the channel made by [healthCheck] never completes. *)
Lemma chan_send_make_chan c s : chan_send make_chan c s = Blocked.
Proof. reflexivity. Qed.

Lemma probe_alive v ch c s :
  is_Some (connHeap s !! c) -> dead s v c = false ->
  probe v ch c s = Done (ch, with_trace (trace s ++ [EvPing c]) s).
Proof.
  intros [o Ho] Hd. unfold dead in Hd. rewrite Ho in Hd. unfold probe.
  erewrite bind_Done by (by apply readConn_Done).
  erewrite bind_Done by reflexivity.
  by destruct (Ping _ _).
Qed.

Lemma probe_dead v c s : dead s v c = true -> probe v make_chan c s = Blocked.
Proof.
  unfold dead. destruct (connHeap s !! c) as [o|] eqn:Ho; [|discriminate]. intros Hd.
  unfold probe. erewrite bind_Done by (by apply readConn_Done).
  erewrite bind_Done by reflexivity.
  by destruct (Ping _ _).
Qed.

Lemma probes_run v l s :
  (forall c, c ∈ l -> is_Some (connHeap s !! c)) ->
  forFold l make_chan (probe v) s
  = if existsb (dead s v) l then Blocked
    else Done (make_chan, with_trace (trace s ++ map EvPing l) s).
Proof.
  revert s. induction l as [|c l IH]; intros s Hl; simpl.
  - by rewrite app_nil_r, with_trace_same.
  - destruct (dead s v c) eqn:Hd; simpl.
    + apply bind_Blocked. by apply probe_dead.
    + erewrite bind_Done by (apply probe_alive; [apply Hl; by left | done]).
      rewrite IH by (intros c' Hc'; apply Hl; by right).
      change (existsb (dead (with_trace _ s) v) l) with (existsb (dead s v) l).
      destruct (existsb _ l); [done|].
      unfold with_trace; simpl. by rewrite <- app_assoc.
Qed.

Lemma pools_run kvs s :
  (forall kv, kv ∈ kvs -> exists v, poolHeap s !! kv.2 = Some v /\
     forall c, c ∈ pool_grpcConnection v -> is_Some (connHeap s !! c)) ->
  forFold kvs make_chan
    (fun dirtyConnections kv =>
       v ← readPool kv.2;
       forFold (pool_grpcConnection v) dirtyConnections (probe v)) s
  = if existsb (poolDead s) kvs then Blocked
    else Done (make_chan, with_trace (trace s ++ pings s kvs) s).
Proof.
  revert s. induction kvs as [|kv kvs IH]; intros s Hkvs; simpl.
  - by rewrite app_nil_r, with_trace_same.
  - destruct (Hkvs kv) as (v & Hv & Hc); [by left|].
    unfold poolDead at 1. rewrite Hv.
    pose proof (probes_run v (pool_grpcConnection v) s Hc) as Hrun.
    destruct (existsb (dead s v) (pool_grpcConnection v)); simpl.
    + apply bind_Blocked. by erewrite bind_Done by (by apply readPool_Done).
    + erewrite bind_Done.
      2:{ erewrite bind_Done by (by apply readPool_Done). exact Hrun. }
      rewrite IH by (intros kv' Hkv'; apply Hkvs; by right).
      change (existsb (poolDead (with_trace _ s)) kvs) with (existsb (poolDead s) kvs).
      destruct (existsb _ kvs); [done|].
      change (pings (with_trace _ s) kvs) with (pings s kvs).
      unfold with_trace; simpl. by rewrite <- app_assoc.
Qed.

Lemma wf_registry s kv :
  wf s -> kv ∈ map_to_list (connectionCache s) ->
  exists v, poolHeap s !! kv.2 = Some v /\
    forall c, c ∈ pool_grpcConnection v -> is_Some (connHeap s !! c).
Proof.
  intros Hwf Hkv. destruct kv as [k p]. apply elem_of_map_to_list in Hkv.
  destruct (wf_cache _ Hwf k p Hkv) as [v Hv]. exists v. split; [done|].
  intros c Hc. by eapply wf_pools.
Qed.

(** The whole of [healthCheck] on a well-formed state. *)
Lemma healthCheck_run s :
  wf s ->
  healthCheck s
  = if existsb (poolDead s) (map_to_list (connectionCache s)) then Blocked
    else Done (tt, with_trace
                     (trace s ++ EvSleep Second :: pings s (map_to_list (connectionCache s))
                        ++ [EvGo (go_cleanConnections (close make_chan))]) s).
Proof.
  intros Hwf. unfold healthCheck, Sleep.
  erewrite bind_Done by reflexivity. erewrite bind_Done by reflexivity.
  pose proof (pools_run (map_to_list (connectionCache s))
                (with_trace (trace s ++ [EvSleep Second]) s)) as Hrun.
  change (existsb (poolDead (with_trace _ s))) with (existsb (poolDead s)) in Hrun.
  change (pings (with_trace _ s)) with (pings s) in Hrun.
  destruct (existsb _ _).
  - apply bind_Blocked. apply Hrun. intros kv Hkv. by apply (wf_registry s).
  - erewrite bind_Done by (apply Hrun; intros kv Hkv; by apply (wf_registry s)).
    unfold emit, with_trace; simpl. by rewrite <- !app_assoc.
Qed.

(** What a pass that returns has done, on any state: it slept at the start,
    changed no pool, and handed over the channel it made, still empty. *)
Lemma probe_grows v c s :
  post (probe v make_chan c) s (fun ch s' => ch = make_chan /\ grows s s').
Proof.
  unfold probe. wp. destruct (Ping _ _).
  - intros ch s' [=].
  - wp. split; [done|]. split; simpl; try done.
    + intros q pool Hq. by exists pool.
    + by exists [EvPing c].
Qed.

Lemma healthCheck_returns_inv s s' :
  healthCheck s = Done (tt, s') ->
  exists s1, grows (with_trace (trace s ++ [EvSleep Second]) s) s1 /\
             s' = with_trace (trace s1 ++ [EvGo (go_cleanConnections (close make_chan))]) s1.
Proof.
  unfold healthCheck, Sleep. intros H.
  apply bind_Done_inv in H as ([] & s0 & Hs & H). injection Hs as <-.
  apply bind_Done_inv in H as (s2 & ? & [= <- <-] & H).
  apply bind_Done_inv in H as (ch & s1 & Hloop & H).
  set (s0 := with_trace (trace s ++ [EvSleep Second]) s) in *.
  assert (Hinv : ch = make_chan /\ grows s0 s1).
  { revert Hloop.
    apply (post_forFold (fun ch s1 => ch = make_chan /\ grows s0 s1));
      [|split; [done | apply grows_refl]].
    intros ch0 kv sa _ [-> Ha]. wp.
    apply (post_forFold (fun ch s1 => ch = make_chan /\ grows s0 s1)); [|done].
    intros ch1 c0 sb _ [-> Hb]. eapply post_mono; [apply probe_grows|].
    intros ch2 sc [-> Hc]. split; [done | by eapply grows_trans]. }
  destruct Hinv as [-> Hg]. exists s1. split; [done|]. by injection H as <-.
Qed.

(** * The claims *)

(** The first [Connect] for a service populates the pool and returns one of
    its members; the state it leaves is [warm]. *)
Example Connect_first_call :
  Connect "backend" "prod" (stub false) (boot (clusterOf ["10.0.0.1"; "10.0.0.2"] []))
  = Done ((Some 0%nat, None),
          warm (stub false) ["10.0.0.1"; "10.0.0.2"] (clusterOf ["10.0.0.1"; "10.0.0.2"] [])).
Proof. vm_compute. reflexivity. Qed.

(** C1 (the code departs from the claim): when the pool of [serviceName]
    already exists, [Connect] selects nothing: it returns a nil result with a
    nil error and leaves the state as it was. *)
Theorem Connect_existing_pool_returns_nil serviceName namespace f s p :
  connectionCache s !! serviceName = Some p ->
  Connect serviceName namespace f s = Done ((None, None), s).
Proof.
  intros Hp. unfold Connect. erewrite bind_Done by reflexivity. by rewrite Hp.
Qed.

Lemma Connect_existing_pool_returns_nil_witness :
  let s := warm (stub false) ["10.0.0.1"; "10.0.0.2"] (clusterOf ["10.0.0.1"; "10.0.0.2"] []) in
  connectionCache s !! "backend" = Some 0%nat /\
  Connect "backend" "prod" (stub false) s = Done ((None, None), s).
Proof.
  intros s. split; [vm_compute; reflexivity|].
  apply (Connect_existing_pool_returns_nil "backend" "prod" (stub false) s 0%nat).
  vm_compute; reflexivity.
Defined.

(** C2 (the code departs from the claim): a first [Connect] whose populate
    leaves the pool without a connection (the directory lists no pod, or
    [NewGrpcClient] fails for every pod) evaluates [rand.Int31n(0)] and
    panics; no error is returned. *)
Theorem Connect_empty_pool_panics serviceName namespace f s svcs svc e pods e' :
  connectionCache s !! serviceName = None ->
  Services_List (clientset s) namespace = (svcs, None) ->
  findService svcs serviceName = (Some svc, e) ->
  Pods_List (clientset s) namespace (svc_Selector svc) = (Some pods, e') ->
  (forall pod, pod ∈ pods -> clientOk f (clientset s) pod = false) ->
  Connect serviceName namespace f s = Panic Int31nInvalidArgument.
Proof.
  intros Hnone Hl Hf Hpods Hno. unfold Connect.
  erewrite bind_Done by reflexivity. rewrite Hnone.
  set (empty := {| nConnections := 0; functions := f; pool_grpcConnection := [] |}).
  set (c := length (poolHeap s)).
  set (s2 := with_cache (<[serviceName := c]> (connectionCache s))
               (with_poolHeap (poolHeap s ++ [empty]) s)).
  assert (Hc : poolHeap s2 !! c = Some empty).
  { simpl. rewrite lookup_app_r by done. subst c. by rewrite Nat.sub_diag. }
  erewrite bind_Done.
  2:{ unfold getConnectionPool. erewrite bind_Done by reflexivity. rewrite Hnone.
      erewrite bind_Done by reflexivity. erewrite bind_Done by reflexivity.
      erewrite bind_Done by reflexivity.
      change (connectionCache _ !! serviceName) with (connectionCache s2 !! serviceName).
      simpl. rewrite lookup_insert_eq. erewrite bind_Done by reflexivity.
      unfold updateConnectionPool. erewrite bind_Done by reflexivity.
      erewrite bind_Done by (by apply getService_found). rewrite Hf.
      unfold getPodsForSvc. erewrite bind_Done.
      2:{ erewrite bind_Done by reflexivity. reflexivity. }
      simpl. rewrite Hpods. erewrite bind_Done by reflexivity.
      erewrite bind_Done by (by apply (forEach_addPod_none_ok _ _ c pods s2 empty Hc);
                              [intros ? []%elem_of_nil | exact Hno]).
      reflexivity. }
  erewrite bind_Done by (by apply readPool_Done; exact Hc).
  reflexivity.
Qed.

Lemma Connect_empty_pool_panics_witness :
  Connect "backend" "prod" (stub false) (boot (clusterOf [] [])) = Panic Int31nInvalidArgument.
Proof.
  apply (Connect_empty_pool_panics "backend" "prod" (stub false) (boot (clusterOf [] []))
           [backend] backend None [] None).
  - vm_compute; reflexivity.
  - vm_compute; reflexivity.
  - vm_compute; reflexivity.
  - vm_compute; reflexivity.
  - intros pod Hpod. by apply elem_of_nil in Hpod.
Defined.

(** The same when pods are listed and no client can be built for any. *)
Example Connect_all_clients_fail :
  Connect "backend" "prod" strict (boot (clusterOf ["10.0.0.3"; "10.0.0.4"] ["10.0.0.4"]))
  = Panic Int31nInvalidArgument.
Proof. vm_compute. reflexivity. Qed.

(** C5, as the spec states it, fails: with the directory unreachable the full
    scan of a registry with one pool ends in [log.Fatal], and so does a first
    [Connect]; the process exits and no error reaches the caller. *)
Lemma directory_failure_is_not_survived :
  updatePool (warm (stub false) ["10.0.0.1"] unreachable) = Fatal "connection refused" /\
  Connect "backend" "prod" (stub false) (boot unreachable) = Fatal "connection refused".
Proof. split; vm_compute; reflexivity. Qed.

(** C5 (amended): when listing the services fails, [updateConnectionPool]
    logs the error and exits the process, during a background rescan as
    during the first populate: [Connect] for a service without a pool ends the
    same way and returns nothing to its caller. *)
Theorem directory_unreachable_is_fatal serviceName namespace f currentCache s svcs e :
  Services_List (clientset s) namespace = (svcs, Some e) ->
  updateConnectionPool serviceName namespace f currentCache s = Fatal e /\
  forall newService, connectionCache s !! newService = None ->
    Connect newService namespace f s = Fatal e.
Proof.
  intros Hl.
  assert (Hu : forall name cc s1, clientset s1 = clientset s ->
             updateConnectionPool name namespace f cc s1 = Fatal e).
  { intros name cc s1 Hs1. unfold updateConnectionPool.
    erewrite bind_Done by reflexivity. apply bind_Fatal.
    apply getService_unreachable with svcs. by rewrite Hs1. }
  split; [by apply Hu|].
  intros name Hnone. unfold Connect. erewrite bind_Done by reflexivity. rewrite Hnone.
  apply bind_Fatal. unfold getConnectionPool.
  erewrite bind_Done by reflexivity. rewrite Hnone.
  erewrite bind_Done by reflexivity. erewrite bind_Done by reflexivity.
  erewrite bind_Done by reflexivity. simpl. rewrite lookup_insert_eq.
  erewrite bind_Done by reflexivity. by apply Hu.
Qed.

Lemma directory_unreachable_is_fatal_witness :
  let s := warm (stub false) ["10.0.0.1"] unreachable in
  updateConnectionPool "backend" "prod" (stub false) 0%nat s = Fatal "connection refused" /\
  Connect "frontend" "prod" (stub false) s = Fatal "connection refused".
Proof.
  intros s.
  destruct (directory_unreachable_is_fatal "backend" "prod" (stub false) 0%nat s
              [] "connection refused") as [Hupdate HConnect].
  - vm_compute; reflexivity.
  - split; [exact Hupdate|]. apply HConnect. vm_compute; reflexivity.
Defined.

(** When the service is not listed, [getService] does return an error, and
    [updateConnectionPool] drops it and dereferences the nil service. *)
Lemma updateConnectionPool_service_not_found serviceName namespace f currentCache s svcs e :
  Services_List (clientset s) namespace = (svcs, None) ->
  findService svcs serviceName = (None, e) ->
  updateConnectionPool serviceName namespace f currentCache s = Panic NilDereference.
Proof.
  intros Hl Hf. unfold updateConnectionPool.
  erewrite bind_Done by reflexivity.
  erewrite bind_Done by (by apply getService_found). by rewrite Hf.
Qed.

(** C4 (the code departs from the claim): the test on [connectionIP] in
    [updateConnectionPool] decides nothing, so the step appends a connection
    for every listed pod whose client can be built; when such a pod's address
    is already in the pool, the pool holds that address twice afterwards. *)
Theorem updateConnectionPool_duplicates_present_address
    serviceName namespace f currentCache s svcs svc e pods e' pool pod :
  wf s -> poolHeap s !! currentCache = Some pool ->
  Services_List (clientset s) namespace = (svcs, None) ->
  findService svcs serviceName = (Some svc, e) ->
  Pods_List (clientset s) namespace (svc_Selector svc) = (Some pods, e') ->
  pod ∈ pods -> clientOk (functions pool) (clientset s) pod = true ->
  Some (PodIP pod) ∈ addresses s pool ->
  exists s' pool',
    updateConnectionPool serviceName namespace f currentCache s = Done (currentCache, s') /\
    poolHeap s' !! currentCache = Some pool' /\
    addresses s' pool'
    = addresses s pool ++
      map (fun pod => Some (PodIP pod))
          (List.filter (clientOk (functions pool) (clientset s)) pods) /\
    ~ NoDup (addresses s' pool').
Proof.
  intros Hwf Hp Hl Hf Hpods Hpod Hok Hin.
  destruct (forEach_addPod_addresses serviceName namespace currentCache pods s pool Hwf Hp)
    as (s' & pool' & Hrun & _ & Hp' & _ & _ & _ & Ha).
  exists s', pool'. split; [|split; [done|split; [done|]]].
  - unfold updateConnectionPool.
    erewrite bind_Done by reflexivity.
    erewrite bind_Done by (by apply getService_found). rewrite Hf.
    unfold getPodsForSvc. erewrite bind_Done.
    2:{ erewrite bind_Done by reflexivity. reflexivity. }
    rewrite Hpods. erewrite bind_Done by reflexivity.
    by erewrite bind_Done by exact Hrun.
  - rewrite Ha. intros (_ & Hdisj & _)%NoDup_app. apply (Hdisj _ Hin).
    apply list_elem_of_In, in_map_iff. exists pod. split; [done|].
    apply filter_In. split; [by apply list_elem_of_In | done].
Qed.

Lemma warm_wf f ips k8s : wf (warm f ips k8s).
Proof.
  split; simpl.
  - intros k p [<- <-]%lookup_singleton_Some. by eexists.
  - intros p pool c Hp Hc. destruct p as [|p]; [|by destruct p].
    injection Hp as <-. simpl in Hc. apply lookup_lt_is_Some.
    rewrite length_map. apply list_elem_of_In, in_seq in Hc. lia.
Qed.

Lemma updateConnectionPool_duplicates_present_address_witness :
  let s := warm (stub false) ["10.0.0.1"] (clusterOf ["10.0.0.1"] []) in
  exists s' pool',
    updateConnectionPool "backend" "prod" (stub false) 0%nat s = Done (0%nat, s') /\
    poolHeap s' !! 0%nat = Some pool' /\
    addresses s' pool' = [Some "10.0.0.1"; Some "10.0.0.1"] /\
    ~ NoDup (addresses s' pool').
Proof.
  intros s.
  apply (updateConnectionPool_duplicates_present_address "backend" "prod" (stub false) 0%nat s
           [backend] backend None [ {| PodIP := "10.0.0.1" |} ] None
           {| nConnections := 1; functions := stub false; pool_grpcConnection := [0%nat] |}
           {| PodIP := "10.0.0.1" |}).
  - apply warm_wf.
  - reflexivity.
  - reflexivity.
  - vm_compute; reflexivity.
  - reflexivity.
  - by left.
  - reflexivity.
  - by left.
Defined.

(** The same on the whole program: the first [Connect] and one full scan over
    an unchanged directory leave two connections to the one pod. *)
Example full_scan_duplicates :
  exists r s1 s2,
    Connect "backend" "prod" (stub false) (boot (clusterOf ["10.0.0.1"] [])) = Done (r, s1) /\
    updatePool s1 = Done (tt, s2) /\
    (poolHeap s2 !! 0%nat
     = Some {| nConnections := 2; functions := stub false;
               pool_grpcConnection := [0%nat; 1%nat] |}) /\
    connectionIP <$> connHeap s2 !! 0%nat = Some "10.0.0.1" /\
    connectionIP <$> connHeap s2 !! 1%nat = Some "10.0.0.1".
Proof.
  eexists _, _, _. split; [vm_compute; reflexivity|].
  split; [vm_compute; reflexivity|].
  split; [vm_compute; reflexivity|].
  split; vm_compute; reflexivity.
Qed.

(** C10: [updateConnectionPool] only appends.  When it returns, every pool's
    slice is the old slice followed by the new connections, so each
    connection that was a member is still one, at the same place and with the
    same contents; nothing is pruned. *)
Theorem updateConnectionPool_only_appends
    serviceName namespace f currentCache s p s' q pool :
  updateConnectionPool serviceName namespace f currentCache s = Done (p, s') ->
  poolHeap s !! q = Some pool ->
  exists pool',
    poolHeap s' !! q = Some pool' /\
    pool_grpcConnection pool `prefix_of` pool_grpcConnection pool' /\
    forall c o, c ∈ pool_grpcConnection pool -> connHeap s !! c = Some o ->
      c ∈ pool_grpcConnection pool' /\ connHeap s' !! c = Some o.
Proof.
  intros Hrun Hq.
  destruct (updateConnectionPool_grows _ _ _ _ _ _ _ Hrun) as [_ Hg].
  destruct (grows_pools _ _ Hg q pool Hq) as (pool' & Hq' & _ & Hpre).
  exists pool'. split; [done|]. split; [done|].
  intros c o Hc Ho. split.
  - destruct Hpre as [more ->]. apply elem_of_app. by left.
  - destruct (grows_conns _ _ Hg) as [more ->]. by apply lookup_app_l_Some.
Qed.

Lemma updateConnectionPool_only_appends_witness :
  let s := warm (stub false) ["10.0.0.1"] (clusterOf ["10.0.0.2"] []) in
  let s' := warm (stub false) ["10.0.0.1"; "10.0.0.2"] (clusterOf ["10.0.0.2"] []) in
  updateConnectionPool "backend" "prod" (stub false) 0%nat s = Done (0%nat, s') /\
  exists pool',
    poolHeap s' !! 0%nat = Some pool' /\
    [0%nat] `prefix_of` pool_grpcConnection pool' /\
    forall c o, c ∈ [0%nat] -> connHeap s !! c = Some o ->
      c ∈ pool_grpcConnection pool' /\ connHeap s' !! c = Some o.
Proof.
  intros s s'.
  assert (Hrun : updateConnectionPool "backend" "prod" (stub false) 0%nat s = Done (0%nat, s'))
    by (vm_compute; reflexivity).
  split; [exact Hrun|].
  apply (updateConnectionPool_only_appends "backend" "prod" (stub false) 0%nat s 0%nat s' 0%nat
           {| nConnections := 1; functions := stub false; pool_grpcConnection := [0%nat] |}
           Hrun).
  reflexivity.
Defined.

(** The full scan is the same step run on every pool: it prunes nothing
    either, whatever the directory lists by then. *)
Lemma updatePool_only_appends s s' q pool :
  updatePool s = Done (tt, s') ->
  poolHeap s !! q = Some pool ->
  exists pool',
    poolHeap s' !! q = Some pool' /\
    pool_grpcConnection pool `prefix_of` pool_grpcConnection pool'.
Proof.
  intros Hrun Hq. apply updatePool_grows in Hrun as Hg.
  destruct (grows_pools _ _ Hg q pool Hq) as (pool' & Hq' & _ & Hpre).
  by exists pool'.
Qed.

(** C3 (the code departs from the claim): [cleanConnections] never makes a
    pool's collection shorter.  The removal copies the last element over the
    slot of the dead one and shortens a local slice header only, and the
    rescan that follows appends; so after the step every pool holds at least
    as many entries as before, dead ones included. *)
Theorem cleanConnections_never_shrinks dirtyConnections s s' q pool :
  cleanConnections dirtyConnections s = Done (tt, s') ->
  poolHeap s !! q = Some pool ->
  exists pool',
    poolHeap s' !! q = Some pool' /\
    (length (pool_grpcConnection pool) <= length (pool_grpcConnection pool'))%nat.
Proof.
  intros Hrun. revert q pool. change (neverShrinks s s').
  unfold cleanConnections in Hrun.
  apply bind_Done_inv in Hrun as (updateList & s1 & Hevict & Hrun).
  apply bind_Done_inv in Hrun as ([] & s2 & Hclosed & Hrun).
  assert (H1 : neverShrinks s s1).
  { revert Hevict.
    apply (post_forFold (fun _ s1 => neverShrinks s s1)); [|apply neverShrinks_refl].
    intros b v s0 _ H0. eapply post_mono; [apply evict_neverShrinks|].
    intros b' s0' H0'. by eapply neverShrinks_trans. }
  assert (s2 = s1) as ->.
  { destruct (ch_closed dirtyConnections); [by injection Hclosed | discriminate]. }
  eapply neverShrinks_trans; [exact H1|]. apply grows_neverShrinks.
  revert Hrun. apply (forEach_grows _ _ s1 s1); [|apply grows_refl].
  intros kv s0. apply rescan_grows.
Qed.

(** A pool with the single connection 0, reported dead, while the directory
    lists no pod: the entry is still in the slice after the step, and only
    the count went down. *)
Lemma cleanConnections_never_shrinks_witness :
  let s := warm (stub true) ["10.0.0.1"] (clusterOf [] []) in
  let s' := with_poolHeap [ {| nConnections := 0; functions := stub true;
                               pool_grpcConnection := [0%nat] |} ] s in
  cleanConnections {| ch_cap := 1; ch_buf := [0%nat]; ch_closed := true |} s = Done (tt, s') /\
  exists pool',
    poolHeap s' !! 0%nat = Some pool' /\
    (length [0%nat] <= length (pool_grpcConnection pool'))%nat.
Proof.
  intros s s'.
  assert (Hrun : cleanConnections {| ch_cap := 1; ch_buf := [0%nat]; ch_closed := true |} s
                 = Done (tt, s')) by (vm_compute; reflexivity).
  split; [exact Hrun|].
  apply (cleanConnections_never_shrinks _ s s' 0%nat
           {| nConnections := 1; functions := stub true; pool_grpcConnection := [0%nat] |} Hrun).
  reflexivity.
Defined.

(** With three connections and the first reported dead, the slice keeps three
    entries: the last one now appears twice. *)
Example cleanConnections_three :
  let s := warm (stub true) ["10.0.0.1"; "10.0.0.2"; "10.0.0.3"] (clusterOf [] []) in
  cleanConnections {| ch_cap := 1; ch_buf := [0%nat]; ch_closed := true |} s
  = Done (tt, with_poolHeap [ {| nConnections := 2; functions := stub true;
                                 pool_grpcConnection := [2%nat; 1%nat; 2%nat] |} ] s).
Proof. vm_compute. reflexivity. Qed.

(** C9 (the code departs from the claim): evicting a member of a pool whose
    count equals the length of its slice decrements the count and leaves the
    length as it was, so the two differ afterwards. *)
Theorem evict_count_differs_from_length updateList v s vo p pool :
  connHeap s !! v = Some vo ->
  connectionCache s !! serviceName vo = Some p ->
  poolHeap s !! p = Some pool ->
  v ∈ pool_grpcConnection pool ->
  nConnections pool = Z.of_nat (length (pool_grpcConnection pool)) ->
  exists s' pool',
    evict updateList v s = Done (<[serviceName vo := Some p]> updateList, s') /\
    poolHeap s' !! p = Some pool' /\
    length (pool_grpcConnection pool') = length (pool_grpcConnection pool) /\
    nConnections pool' = wrap32 (nConnections pool - 1) /\
    nConnections pool' <> Z.of_nat (length (pool_grpcConnection pool')).
Proof.
  intros Hv Hcache Hp Hin Hcount.
  destruct (last (pool_grpcConnection pool)) as [x|] eqn:Hx.
  2:{ apply last_None in Hx. rewrite Hx in Hin. by apply elem_of_nil in Hin. }
  destruct (removeLoop_found p v 0 (pool_grpcConnection pool) s pool x Hp Hx Hin)
    as (k' & Hloop).
  eexists _, _. split; [|split; [|split; [|split]]].
  - unfold evict. erewrite bind_Done by (by apply readConn_Done).
    erewrite bind_Done by reflexivity. rewrite Hcache.
    erewrite bind_Done by reflexivity.
    erewrite bind_Done by (by apply readPool_Done).
    by erewrite bind_Done by exact Hloop.
  - simpl. apply list_lookup_insert_eq. by eapply lookup_lt_Some.
  - simpl. by rewrite length_insert.
  - reflexivity.
  - simpl. rewrite length_insert, <- Hcount. apply wrap32_pred_ne.
Qed.

Lemma evict_count_differs_from_length_witness :
  let s := warm (stub true) ["10.0.0.1"; "10.0.0.2"] (clusterOf [] []) in
  exists s' pool',
    evict ∅ 0%nat s = Done ({[ "backend" := Some 0%nat ]}, s') /\
    poolHeap s' !! 0%nat = Some pool' /\
    length (pool_grpcConnection pool') = 2%nat /\
    nConnections pool' = 1 /\
    nConnections pool' <> Z.of_nat (length (pool_grpcConnection pool')).
Proof.
  intros s.
  apply (evict_count_differs_from_length ∅ 0%nat s (conn_at "10.0.0.1") 0%nat
           {| nConnections := 2; functions := stub true;
              pool_grpcConnection := [0%nat; 1%nat] |}).
  - reflexivity.
  - vm_compute; reflexivity.
  - reflexivity.
  - by left.
  - reflexivity.
Defined.

(** The populate side does keep the count: one increment per append. *)
Lemma addPod_keeps_count serviceName namespace currentCache pool ip h s :
  nConnections pool = Z.of_nat (length (pool_grpcConnection pool)) ->
  Z.of_nat (length (pool_grpcConnection pool)) < 2 ^ 31 - 1 ->
  poolHeap s !! currentCache = Some pool ->
  exists pool',
    poolHeap (appended serviceName namespace currentCache pool ip h s) !! currentCache
    = Some pool' /\
    nConnections pool' = Z.of_nat (length (pool_grpcConnection pool')).
Proof.
  intros Hcount Hsmall Hp. eexists. split.
  - simpl. apply list_lookup_insert_eq. by eapply lookup_lt_Some.
  - simpl. rewrite length_app, Hcount. simpl. unfold wrap32.
    change (2 ^ 31) with 2147483648 in *. change (2 ^ 32) with 4294967296.
    rewrite Z.mod_small by lia. lia.
Qed.

(** C6 (the code departs from the claim): a pass in which some probe fails
    never finishes.  The channel made by [healthCheck] has no buffer and no
    receiver until the pass is over, so the first failing probe parks the
    goroutine on its send: the channel is never closed and
    [cleanConnections] is never started. *)
Theorem healthCheck_blocks_on_probe_failure s k p v c :
  wf s ->
  connectionCache s !! k = Some p ->
  poolHeap s !! p = Some v ->
  c ∈ pool_grpcConnection v ->
  dead s v c = true ->
  healthCheck s = Blocked.
Proof.
  intros Hwf Hk Hp Hc Hd. rewrite healthCheck_run by done.
  assert (Hex : existsb (poolDead s) (map_to_list (connectionCache s)) = true).
  { apply existsb_exists. exists (k, p). split.
    - apply list_elem_of_In. by apply elem_of_map_to_list.
    - unfold poolDead. simpl. rewrite Hp. apply existsb_exists.
      exists c. split; [by apply list_elem_of_In | done]. }
  by rewrite Hex.
Qed.

Lemma healthCheck_blocks_on_probe_failure_witness :
  healthCheck (warm (stub true) ["10.0.0.1"] (clusterOf ["10.0.0.1"] [])) = Blocked.
Proof.
  apply (healthCheck_blocks_on_probe_failure
           (warm (stub true) ["10.0.0.1"] (clusterOf ["10.0.0.1"] []))
           "backend" 0%nat
           {| nConnections := 1; functions := stub true; pool_grpcConnection := [0%nat] |}
           0%nat).
  - apply warm_wf.
  - vm_compute; reflexivity.
  - reflexivity.
  - by left.
  - reflexivity.
Defined.

(** A pass that does finish hands over an empty channel, on any state: the
    eviction step is never given a dead connection. *)
Lemma healthCheck_hands_over_nothing s s' :
  healthCheck s = Done (tt, s') ->
  last (trace s') = Some (EvGo (go_cleanConnections (close make_chan))) /\
  ch_buf (close make_chan) = [].
Proof.
  intros (s1 & _ & ->)%healthCheck_returns_inv. split; [|done].
  simpl. by rewrite last_snoc.
Qed.

(** With every probe answering, the pass returns after one round of probes. *)
Example healthCheck_all_alive :
  let s := warm (stub false) ["10.0.0.1"; "10.0.0.2"] (clusterOf [] []) in
  healthCheck s
  = Done (tt, with_trace
                (trace s ++ [EvSleep Second; EvPing 0%nat; EvPing 1%nat;
                             EvGo (go_cleanConnections (close make_chan))]) s).
Proof. vm_compute. reflexivity. Qed.

(** C7 (the code departs from the claim): [healthCheck] and [updatePool] have
    no loop.  A run of either goroutine that ends has slept exactly once, at
    its start, and then the goroutine is over; [poolManager] starts each of
    them once. *)
Theorem background_goroutines_run_one_cycle g s s' :
  g = go_healthCheck \/ g = go_updatePool ->
  run g s = Done (tt, s') ->
  sleeps (trace s') = S (sleeps (trace s)).
Proof.
  intros [-> | ->] Hrun; simpl in Hrun.
  - apply healthCheck_returns_inv in Hrun as (s1 & Hg & ->).
    destruct (grows_trace _ _ Hg) as (evs & Ht & Hz). simpl in *.
    rewrite Ht, !sleeps_app, Hz. simpl. lia.
  - apply updatePool_grows in Hrun as Hg.
    destruct (grows_trace _ _ Hg) as (evs & Ht & Hz). simpl in *.
    rewrite Ht, !sleeps_app, Hz. simpl. lia.
Qed.

Lemma background_goroutines_run_one_cycle_witness :
  let s := warm (stub false) ["10.0.0.1"] (clusterOf ["10.0.0.1"] []) in
  let s' := with_trace (trace s ++ [EvSleep Second; EvPing 0%nat;
                                    EvGo (go_cleanConnections (close make_chan))]) s in
  run go_healthCheck s = Done (tt, s') /\ sleeps (trace s') = S (sleeps (trace s)).
Proof.
  intros s s'.
  assert (Hrun : run go_healthCheck s = Done (tt, s')) by (vm_compute; reflexivity).
  split; [exact Hrun|].
  apply (background_goroutines_run_one_cycle go_healthCheck s s'); [by left | exact Hrun].
Defined.

(** The process as [init] starts it: [poolManager], then each goroutine run to
    its end.  One second's sleep, one probe, one minute's sleep, one rescan;
    both goroutines have returned. *)
Example poolManager_whole_life :
  let s := warm (stub false) ["10.0.0.1"] (clusterOf [] []) in
  (poolManager;; run go_healthCheck;; run go_updatePool) s
  = Done (tt, with_trace
                (trace s ++ [EvGo go_healthCheck; EvGo go_updatePool;
                             EvSleep Second; EvPing 0%nat;
                             EvGo (go_cleanConnections (close make_chan));
                             EvSleep Minute]) s).
Proof. vm_compute. reflexivity. Qed.

(** C8 (the code departs from the claim): the error of [grpc.Dial] is
    overwritten by the one of [NewGrpcClient], so an address that cannot be
    dialled is kept when the constructor accepts the missing connection: with
    three pods listed and one dial failing, the pool holds three connections;
    and the [Connect] that follows the populate returns nil, not a handle. *)
Theorem populate_keeps_undialable_and_next_Connect_returns_nil :
  let k8s := clusterOf ["10.0.0.1"; "10.0.0.2"; "10.0.0.3"] ["10.0.0.3"] in
  let s1 := warm (stub false) ["10.0.0.1"; "10.0.0.2"; "10.0.0.3"] k8s in
  Dial k8s "10.0.0.3" = (None, Some "dial failed") /\
  Connect "backend" "prod" (stub false) (boot k8s) = Done ((Some 0%nat, None), s1) /\
  (pool_grpcConnection <$> poolHeap s1 !! 0%nat) = Some [0%nat; 1%nat; 2%nat] /\
  Connect "backend" "prod" (stub false) s1 = Done ((None, None), s1).
Proof.
  intros k8s s1. split; [reflexivity|]. split; [vm_compute; reflexivity|].
  split; [reflexivity|]. vm_compute; reflexivity.
Qed.

(** What the populate does skip is a pod whose client cannot be built: the
    first populate of an empty pool leaves one connection per listed pod for
    which [NewGrpcClient] returned a nil error, in the order listed. *)
Lemma first_populate_addresses serviceName namespace f s svcs svc e pods e' :
  wf s -> connectionCache s !! serviceName = None ->
  Services_List (clientset s) namespace = (svcs, None) ->
  findService svcs serviceName = (Some svc, e) ->
  Pods_List (clientset s) namespace (svc_Selector svc) = (Some pods, e') ->
  exists s' pool',
    getConnectionPool serviceName namespace f s = Done (length (poolHeap s), s') /\
    connectionCache s' !! serviceName = Some (length (poolHeap s)) /\
    poolHeap s' !! length (poolHeap s) = Some pool' /\
    addresses s' pool'
    = map (fun pod => Some (PodIP pod)) (List.filter (clientOk f (clientset s)) pods).
Proof.
  intros Hwf Hnone Hl Hf Hpods.
  set (empty := {| nConnections := 0; functions := f; pool_grpcConnection := [] |}).
  set (c := length (poolHeap s)).
  set (s2 := with_cache (<[serviceName := c]> (connectionCache s))
               (with_poolHeap (poolHeap s ++ [empty]) s)).
  assert (Hc : poolHeap s2 !! c = Some empty).
  { simpl. rewrite lookup_app_r by done. subst c. by rewrite Nat.sub_diag. }
  assert (Hwf2 : wf s2).
  { split; simpl.
    - intros k p Hk. apply lookup_lt_is_Some. rewrite length_app. simpl.
      destruct (decide (serviceName = k)) as [->|Hne].
      + rewrite lookup_insert_eq in Hk. injection Hk as <-. subst c. lia.
      + rewrite lookup_insert_ne in Hk by done.
        apply (wf_cache _ Hwf), lookup_lt_is_Some in Hk. lia.
    - intros p pool x Hp Hx. apply lookup_app_Some in Hp as [Hp|[_ Hp]].
      + by eapply wf_pools.
      + apply list_lookup_singleton_Some in Hp as [_ <-]. by apply elem_of_nil in Hx. }
  destruct (forEach_addPod_addresses serviceName namespace c pods s2 empty Hwf2 Hc)
    as (s' & pool' & Hrun & _ & Hp' & _ & _ & Hm' & Ha).
  exists s', pool'. split; [|split; [|split; [done|]]].
  - unfold getConnectionPool. erewrite bind_Done by reflexivity. rewrite Hnone.
    erewrite bind_Done by reflexivity. erewrite bind_Done by reflexivity.
    erewrite bind_Done by reflexivity.
    change (connectionCache _ !! serviceName) with (connectionCache s2 !! serviceName).
    simpl. rewrite lookup_insert_eq. erewrite bind_Done by reflexivity.
    unfold updateConnectionPool. erewrite bind_Done by reflexivity.
    erewrite bind_Done by (by apply getService_found). rewrite Hf.
    unfold getPodsForSvc. erewrite bind_Done.
    2:{ erewrite bind_Done by reflexivity. reflexivity. }
    simpl. rewrite Hpods. erewrite bind_Done by reflexivity.
    by erewrite bind_Done by exact Hrun.
  - rewrite Hm'. simpl. apply lookup_insert_eq.
  - exact Ha.
Qed.

(** * Further properties of the code *)

(** ** [getService]: the match is by substring, first listed wins *)

Lemma prefix_occurs sub s :
  String.prefix sub s = true <-> exists post : string, s = (sub ++ post)%string.
Proof.
  revert s. induction sub as [|a sub IH]; intros s.
  - split; [intros _; by exists s | by destruct s].
  - destruct s as [|b s]; simpl; [split; [done | intros [post [=]]]|].
    destruct (Ascii.ascii_dec a b) as [->|Hne].
    + rewrite IH. split; intros [post Hp]; exists post; [by rewrite Hp | by injection Hp].
    + split; [done | intros [post [=]]; done].
Qed.

Lemma Contains_unfold s sub :
  Contains s sub
  = if String.prefix sub s then true
    else match s with
         | EmptyString => false
         | String _ s' => Contains s' sub
         end.
Proof. by destruct s. Qed.

Lemma Contains_occursIn s sub : Contains s sub = true <-> occursIn sub s.
Proof.
  induction s as [|a s IH]; rewrite Contains_unfold.
  - destruct (String.prefix sub "") eqn:Hp.
    + split; [intros _ | done]. apply prefix_occurs in Hp as [post Hp].
      by exists ""%string, post.
    + split; [done|]. intros (pre & post & Heq). exfalso.
      destruct pre; [|discriminate]. simpl in Heq.
      assert (String.prefix sub "" = true) by (apply prefix_occurs; by exists post).
      congruence.
  - destruct (String.prefix sub (String a s)) eqn:Hp.
    + split; [intros _ | done]. apply prefix_occurs in Hp as [post Hp].
      by exists ""%string, post.
    + rewrite IH. split.
      * intros (pre & post & ->). by exists (String a pre), post.
      * intros (pre & post & Heq). destruct pre as [|b pre].
        { simpl in Heq. exfalso.
          assert (String.prefix sub (String a s) = true)
            by (apply prefix_occurs; by exists post).
          congruence. }
        injection Heq as _ ->. by exists pre, post.
Qed.

Lemma findService_first_match before svc after serviceName :
  (forall x, x ∈ before -> Contains (svc_Name x) serviceName = false) ->
  Contains (svc_Name svc) serviceName = true ->
  findService (before ++ svc :: after) serviceName = (Some svc, None).
Proof.
  intros Hb Hs. induction before as [|x before IH]; simpl.
  - by rewrite Hs.
  - rewrite (Hb x) by (by left). apply IH. intros y Hy. apply Hb. by right.
Qed.

(** X1: [getService] returns the first listed service in whose name
    [serviceName] occurs, with a nil error and without touching the state;
    the name need not be equal. *)
Theorem getService_first_substring_match
    serviceName namespace k8sClient s before svc after :
  Services_List k8sClient namespace = (before ++ svc :: after, None) ->
  (forall x, x ∈ before -> ~ occursIn serviceName (svc_Name x)) ->
  occursIn serviceName (svc_Name svc) ->
  getService serviceName namespace k8sClient s = Done ((Some svc, None), s).
Proof.
  intros Hl Hb Hs. rewrite (getService_found _ _ _ _ _ Hl).
  rewrite findService_first_match; [done| |by apply Contains_occursIn].
  intros x Hx. destruct (Contains (svc_Name x) serviceName) eqn:Hc; [|done].
  apply Contains_occursIn in Hc. by destruct (Hb x Hx).
Qed.

Lemma getService_first_substring_match_witness :
  let k8s := {| Services_List := fun _ =>
                  ([ {| svc_Name := "frontend"; svc_Selector := [] |};
                     {| svc_Name := "backend-grpc-canary"; svc_Selector := [] |};
                     {| svc_Name := "backend"; svc_Selector := [] |} ], None);
                Pods_List := fun _ _ => (Some [], None);
                Dial := fun _ => (None, None) |} in
  getService "backend" "prod" k8s (boot k8s)
  = Done ((Some {| svc_Name := "backend-grpc-canary"; svc_Selector := [] |}, None), boot k8s).
Proof.
  intros k8s.
  apply (getService_first_substring_match "backend" "prod" k8s (boot k8s)
           [ {| svc_Name := "frontend"; svc_Selector := [] |} ]
           {| svc_Name := "backend-grpc-canary"; svc_Selector := [] |}
           [ {| svc_Name := "backend"; svc_Selector := [] |} ]).
  - reflexivity.
  - intros x Hx Hocc. apply Contains_occursIn in Hocc.
    apply list_elem_of_singleton in Hx as ->. vm_compute in Hocc. discriminate.
  - apply Contains_occursIn. vm_compute; reflexivity.
Defined.

Lemma findService_none svcs serviceName :
  (forall x, x ∈ svcs -> Contains (svc_Name x) serviceName = false) ->
  findService svcs serviceName = (None, Some "cannot find service").
Proof.
  intros Hb. induction svcs as [|x svcs IH]; simpl; [done|].
  rewrite (Hb x) by (by left). apply IH. intros y Hy. apply Hb. by right.
Qed.

(** X2: When the listing succeeds and [serviceName] occurs in no listed name,
    [getService] returns a nil service with the error "cannot find service"
    and leaves the state alone. *)
Theorem getService_no_match serviceName namespace k8sClient s svcs :
  Services_List k8sClient namespace = (svcs, None) ->
  (forall x, x ∈ svcs -> ~ occursIn serviceName (svc_Name x)) ->
  getService serviceName namespace k8sClient s
  = Done ((None, Some "cannot find service"), s).
Proof.
  intros Hl Hb. rewrite (getService_found _ _ _ _ _ Hl).
  rewrite findService_none; [done|].
  intros x Hx. destruct (Contains (svc_Name x) serviceName) eqn:Hc; [|done].
  apply Contains_occursIn in Hc. by destruct (Hb x Hx).
Qed.

Lemma getService_no_match_witness :
  getService "billing" "prod" (clusterOf [] []) (boot (clusterOf [] []))
  = Done ((None, Some "cannot find service"), boot (clusterOf [] [])).
Proof.
  apply (getService_no_match "billing" "prod" (clusterOf [] []) (boot (clusterOf [] []))
           [backend]).
  - reflexivity.
  - intros x Hx Hocc. apply Contains_occursIn in Hocc.
    apply list_elem_of_singleton in Hx as ->. vm_compute in Hocc. discriminate.
Defined.

(** X3: The empty name occurs in every name: [getService] with an empty
    [serviceName] returns the first service listed, whatever it is. *)
Theorem getService_empty_name namespace k8sClient s svc rest :
  Services_List k8sClient namespace = (svc :: rest, None) ->
  getService "" namespace k8sClient s = Done ((Some svc, None), s).
Proof.
  intros Hl. rewrite (getService_found _ _ _ _ _ Hl).
  change (svc :: rest) with ([] ++ svc :: rest).
  rewrite (findService_first_match [] svc rest ""); [done| |].
  - intros x Hx. by apply elem_of_nil in Hx.
  - apply Contains_occursIn. by exists ""%string, (svc_Name svc).
Qed.

Lemma getService_empty_name_witness :
  getService "" "prod" (clusterOf [] []) (boot (clusterOf [] []))
  = Done ((Some backend, None), boot (clusterOf [] [])).
Proof.
  apply (getService_empty_name "prod" (clusterOf [] []) (boot (clusterOf [] [])) backend []).
  reflexivity.
Defined.

(** ** [updateConnectionPool]: the populate written out *)

Lemma populated_nil serviceName namespace currentCache pool s :
  poolHeap s !! currentCache = Some pool ->
  populated serviceName namespace currentCache pool [] s = s.
Proof.
  intros Hp. unfold populated, built. simpl. rewrite !app_nil_r.
  replace {| nConnections := nConnections pool; functions := functions pool;
             pool_grpcConnection := pool_grpcConnection pool |} with pool by (by destruct pool).
  rewrite list_insert_id by done. by destruct s.
Qed.

Lemma populated_skip serviceName namespace currentCache pool pod pods s :
  clientOk (functions pool) (clientset s) pod = false ->
  populated serviceName namespace currentCache pool pods
    (with_trace (trace s ++ [EvDial (PodIP pod)]) s)
  = populated serviceName namespace currentCache pool (pod :: pods) s.
Proof.
  intros Hno. unfold populated, built. simpl. rewrite Hno.
  unfold with_poolHeap, with_connHeap, with_trace. simpl. by rewrite <- app_assoc.
Qed.

Lemma iter_count_shift k n :
  Nat.iter k (fun n => wrap32 (n + 1)) (wrap32 (n + 1))
  = wrap32 (Nat.iter k (fun n => wrap32 (n + 1)) n + 1).
Proof. induction k as [|k IH]; simpl; [done | by rewrite IH]. Qed.

Lemma populated_keep serviceName namespace currentCache pool pod pods s h :
  NewGrpcClient (functions pool) (Dial (clientset s) (PodIP pod)).1 = (h, None) ->
  populated serviceName namespace currentCache
    {| nConnections := wrap32 (nConnections pool + 1);
       functions := functions pool;
       pool_grpcConnection := pool_grpcConnection pool ++ [length (connHeap s)] |}
    pods
    (appended serviceName namespace currentCache pool (PodIP pod) h s)
  = populated serviceName namespace currentCache pool (pod :: pods) s.
Proof.
  intros Hnew.
  assert (Hok : clientOk (functions pool) (clientset s) pod = true)
    by (unfold clientOk; by rewrite Hnew).
  unfold populated, built, appended. simpl. rewrite Hok. simpl. rewrite Hnew. simpl.
  unfold with_poolHeap, with_connHeap, with_trace. simpl.
  rewrite iter_count_shift, list_insert_insert_eq, <- !app_assoc, length_app. simpl.
  by rewrite Nat.add_1_r.
Qed.

Lemma forEach_addPod_populated serviceName namespace currentCache pods s pool :
  wf s -> poolHeap s !! currentCache = Some pool ->
  forEach pods (addPod serviceName namespace currentCache) s
  = Done (tt, populated serviceName namespace currentCache pool pods s).
Proof.
  revert s pool. induction pods as [|pod pods IH]; intros s pool Hwf Hp.
  - simpl. by rewrite populated_nil.
  - assert (Hc : forall c, c ∈ pool_grpcConnection pool -> is_Some (connHeap s !! c))
      by (intros c Hc; by eapply wf_pools).
    cbn [forEach].
    destruct (NewGrpcClient (functions pool) (Dial (clientset s) (PodIP pod)).1)
      as [h [e|]] eqn:Hnew.
    + erewrite bind_Done by (by eapply addPod_client_fails).
      rewrite (IH _ pool) by (by try apply wf_with_trace).
      rewrite populated_skip; [done|]. unfold clientOk. by rewrite Hnew.
    + erewrite bind_Done by (by eapply addPod_client_ok).
      erewrite IH; [by rewrite populated_keep | by apply wf_appended |].
      simpl. apply list_lookup_insert_eq. by eapply lookup_lt_Some.
Qed.

Lemma updateConnectionPool_run
    serviceName namespace f currentCache s svcs svc e pods e' pool :
  wf s -> poolHeap s !! currentCache = Some pool ->
  Services_List (clientset s) namespace = (svcs, None) ->
  findService svcs serviceName = (Some svc, e) ->
  Pods_List (clientset s) namespace (svc_Selector svc) = (Some pods, e') ->
  updateConnectionPool serviceName namespace f currentCache s
  = Done (currentCache, populated serviceName namespace currentCache pool pods s).
Proof.
  intros Hwf Hp Hl Hf Hpods. unfold updateConnectionPool.
  erewrite bind_Done by reflexivity.
  erewrite bind_Done by (by apply getService_found). rewrite Hf.
  unfold getPodsForSvc. erewrite bind_Done.
  2:{ erewrite bind_Done by reflexivity. reflexivity. }
  rewrite Hpods. erewrite bind_Done by reflexivity.
  by erewrite bind_Done by (by apply forEach_addPod_populated).
Qed.

(** X4: [updateConnectionPool], when the directory answers: it returns the pool
    it was given, after one dial per listed pod and one new connection,
    tagged with the service name and namespace of the call, for each pod
    whose client could be built.  The capability argument [f] and the error of
    the pod listing play no part. *)
Theorem updateConnectionPool_populates
    serviceName namespace f currentCache s svcs svc e pods e' pool :
  wf s -> poolHeap s !! currentCache = Some pool ->
  Services_List (clientset s) namespace = (svcs, None) ->
  findService svcs serviceName = (Some svc, e) ->
  Pods_List (clientset s) namespace (svc_Selector svc) = (Some pods, e') ->
  updateConnectionPool serviceName namespace f currentCache s
  = Done (currentCache, populated serviceName namespace currentCache pool pods s).
Proof. apply updateConnectionPool_run. Qed.

Lemma updateConnectionPool_populates_witness :
  let k8s := clusterOf ["10.0.0.2"; "10.0.0.3"; "10.0.0.4"] ["10.0.0.4"] in
  let s := warm strict ["10.0.0.1"] k8s in
  updateConnectionPool "backend" "prod" (stub true) 0%nat s
  = Done (0%nat,
          with_poolHeap [ {| nConnections := 2; functions := strict;
                             pool_grpcConnection := [0%nat; 1%nat] |} ]
            (with_connHeap [conn_at "10.0.0.1"; conn_at "10.0.0.2"]
               (with_trace [EvDial "10.0.0.1"; EvDial "10.0.0.2";
                            EvDial "10.0.0.3"; EvDial "10.0.0.4"] s))).
Proof.
  intros k8s s.
  apply (updateConnectionPool_populates "backend" "prod" (stub true) 0%nat s
           [backend] backend None
           [ {| PodIP := "10.0.0.2" |}; {| PodIP := "10.0.0.3" |}; {| PodIP := "10.0.0.4" |} ]
           None
           {| nConnections := 1; functions := strict; pool_grpcConnection := [0%nat] |}).
  - apply warm_wf.
  - reflexivity.
  - reflexivity.
  - vm_compute; reflexivity.
  - reflexivity.
Defined.

Lemma iter_count_small k n :
  0 <= n -> n + Z.of_nat k < 2 ^ 31 ->
  Nat.iter k (fun n => wrap32 (n + 1)) n = n + Z.of_nat k.
Proof.
  intros Hn. induction k as [|k IH]; intros Hk; simpl Nat.iter; [lia|].
  rewrite IH by lia. unfold wrap32.
  change (2 ^ 31) with 2147483648 in *. change (2 ^ 32) with 4294967296.
  rewrite Z.mod_small by lia. lia.
Qed.

Lemma built_length_le serviceName namespace f k8s pods :
  (length (built serviceName namespace f k8s pods) <= length pods)%nat.
Proof. unfold built. rewrite length_map. apply List.filter_length_le. Qed.

(** X5: The populate keeps the count equal to the length of the slice, as long as
    the count stays within int32. *)
Theorem updateConnectionPool_keeps_count
    serviceName namespace f currentCache s svcs svc e pods e' pool :
  wf s -> poolHeap s !! currentCache = Some pool ->
  Services_List (clientset s) namespace = (svcs, None) ->
  findService svcs serviceName = (Some svc, e) ->
  Pods_List (clientset s) namespace (svc_Selector svc) = (Some pods, e') ->
  nConnections pool = Z.of_nat (length (pool_grpcConnection pool)) ->
  Z.of_nat (length (pool_grpcConnection pool) + length pods) < 2 ^ 31 ->
  exists s' pool',
    updateConnectionPool serviceName namespace f currentCache s = Done (currentCache, s') /\
    poolHeap s' !! currentCache = Some pool' /\
    nConnections pool' = Z.of_nat (length (pool_grpcConnection pool')).
Proof.
  intros Hwf Hp Hl Hf Hpods Hcount Hsmall.
  eexists _, _. split; [by eapply updateConnectionPool_run|]. split.
  - simpl. apply list_lookup_insert_eq. by eapply lookup_lt_Some.
  - simpl. rewrite length_app, length_seq.
    pose proof (built_length_le serviceName namespace (functions pool) (clientset s) pods).
    rewrite iter_count_small by lia. lia.
Qed.

Lemma updateConnectionPool_keeps_count_witness :
  let s := warm (stub false) ["10.0.0.1"] (clusterOf ["10.0.0.2"] []) in
  exists s' pool',
    updateConnectionPool "backend" "prod" (stub false) 0%nat s = Done (0%nat, s') /\
    poolHeap s' !! 0%nat = Some pool' /\
    nConnections pool' = Z.of_nat (length (pool_grpcConnection pool')).
Proof.
  intros s.
  apply (updateConnectionPool_keeps_count "backend" "prod" (stub false) 0%nat s
           [backend] backend None [ {| PodIP := "10.0.0.2" |} ] None
           {| nConnections := 1; functions := stub false; pool_grpcConnection := [0%nat] |}).
  - apply warm_wf.
  - reflexivity.
  - reflexivity.
  - vm_compute; reflexivity.
  - reflexivity.
  - reflexivity.
  - vm_compute; reflexivity.
Defined.

(** ** [Connect] and [getConnectionPool]: the first call for a service *)

Lemma registered_wf serviceName f s : wf s -> wf (registered serviceName f s).
Proof.
  intros Hwf. split; simpl.
  - intros k p Hk. apply lookup_lt_is_Some. rewrite length_app. simpl.
    destruct (decide (serviceName = k)) as [->|Hne].
    + rewrite lookup_insert_eq in Hk. injection Hk as <-. lia.
    + rewrite lookup_insert_ne in Hk by done.
      apply (wf_cache _ Hwf), lookup_lt_is_Some in Hk. lia.
  - intros p pool x Hp Hx. apply lookup_app_Some in Hp as [Hp|[_ Hp]].
    + by eapply wf_pools.
    + apply list_lookup_singleton_Some in Hp as [_ <-]. by apply elem_of_nil in Hx.
Qed.

Lemma getConnectionPool_new serviceName namespace f s :
  connectionCache s !! serviceName = None ->
  getConnectionPool serviceName namespace f s
  = updateConnectionPool serviceName namespace f (length (poolHeap s))
      (registered serviceName f s).
Proof.
  intros Hnone. unfold getConnectionPool.
  erewrite bind_Done by reflexivity. rewrite Hnone.
  erewrite bind_Done by reflexivity. erewrite bind_Done by reflexivity.
  erewrite bind_Done by reflexivity.
  change (connectionCache _ !! serviceName)
    with (connectionCache (registered serviceName f s) !! serviceName).
  simpl. rewrite lookup_insert_eq. by erewrite bind_Done by reflexivity.
Qed.

(** X6: The first [Connect] for a service, when the directory answers and at
    least one client can be built: the service gets a new pool with one
    connection per buildable pod, and the caller gets the connection whose
    index in the pool is the next random draw modulo the pool's size, with a
    nil error. *)
Theorem Connect_first_call_selects_member
    serviceName namespace f s svcs svc e pods e' :
  wf s -> connectionCache s !! serviceName = None ->
  Services_List (clientset s) namespace = (svcs, None) ->
  findService svcs serviceName = (Some svc, e) ->
  Pods_List (clientset s) namespace (svc_Selector svc) = (Some pods, e') ->
  built serviceName namespace f (clientset s) pods <> [] ->
  Z.of_nat (length pods) < 2 ^ 31 ->
  let news := built serviceName namespace f (clientset s) pods in
  let i := Z.to_nat (randSrc s (randPos s) mod Z.of_nat (length news)) in
  exists s',
    Connect serviceName namespace f s = Done ((Some (length (connHeap s) + i)%nat, None), s') /\
    (i < length news)%nat /\
    connHeap s' = connHeap s ++ news /\
    connectionCache s' = <[serviceName := length (poolHeap s)]> (connectionCache s) /\
    poolHeap s'
    = poolHeap s ++ [ {| nConnections := Z.of_nat (length news); functions := f;
                         pool_grpcConnection := seq (length (connHeap s)) (length news) |} ].
Proof.
  intros Hwf Hnone Hl Hf Hpods Hsome Hsmall news i.
  set (c := length (poolHeap s)).
  set (empty := {| nConnections := 0; functions := f; pool_grpcConnection := [] |}).
  assert (Hlen : (length news <= length pods)%nat) by apply built_length_le.
  assert (Hpos : (0 < length news)%nat).
  { destruct (decide (length news = 0%nat)) as [H0|]; [|lia]. by apply nil_length_inv in H0. }
  assert (Hi : (i < length news)%nat).
  { subst i. pose proof (Z.mod_pos_bound (randSrc s (randPos s)) (Z.of_nat (length news))).
    lia. }
  assert (Hrun : getConnectionPool serviceName namespace f s
                 = Done (c, populated serviceName namespace c empty pods
                              (registered serviceName f s))).
  { rewrite getConnectionPool_new by done.
    eapply updateConnectionPool_run; eauto using registered_wf.
    simpl. rewrite lookup_app_r by done. by rewrite Nat.sub_diag. }
  eexists. split; [|split; [exact Hi|]].
  - unfold Connect. erewrite bind_Done by reflexivity. rewrite Hnone.
    erewrite bind_Done by exact Hrun.
    erewrite bind_Done.
    2:{ apply readPool_Done. simpl. apply list_lookup_insert_eq.
        rewrite length_app. simpl. lia. }
    cbn [nConnections pool_grpcConnection functions empty app]. fold news.
    rewrite iter_count_small by lia. rewrite Z.add_0_l.
    unfold Int31n. destruct (Z.leb_spec (Z.of_nat (length news)) 0); [lia|].
    erewrite bind_Done by reflexivity. cbn [randSrc randPos registered populated
      with_poolHeap with_connHeap with_trace with_cache].
    unfold index.
    destruct (Z.ltb_spec (randSrc s (randPos s) mod Z.of_nat (length news)) 0).
    { pose proof (Z.mod_pos_bound (randSrc s (randPos s)) (Z.of_nat (length news))). lia. }
    fold i. rewrite lookup_seq_lt by done.
    erewrite bind_Done by reflexivity. reflexivity.
  - simpl. fold news. split; [done|]. split; [done|].
    rewrite iter_count_small by lia. rewrite Z.add_0_l.
    subst c. replace (length (poolHeap s)) with (length (poolHeap s) + 0)%nat at 1 by lia.
    by rewrite insert_app_r.
Qed.

Lemma Connect_first_call_selects_member_witness :
  let k8s := clusterOf ["10.0.0.1"; "10.0.0.2"; "10.0.0.3"] [] in
  let s := warm (stub false) ["10.0.0.1"] k8s in
  let tagged ip := {| gc_grpcConnection := Some 1%nat; connectionIP := ip;
                      serviceName := "grpc"; namespace := "prod" |} in
  exists s',
    Connect "grpc" "prod" (stub false) s = Done ((Some 2%nat, None), s') /\
    (1 < 3)%nat /\
    connHeap s' = [conn_at "10.0.0.1"; tagged "10.0.0.1"; tagged "10.0.0.2"; tagged "10.0.0.3"] /\
    connectionCache s' = <["grpc" := 1%nat]> (connectionCache s) /\
    poolHeap s'
    = poolHeap s ++ [ {| nConnections := 3; functions := stub false;
                         pool_grpcConnection := [1%nat; 2%nat; 3%nat] |} ].
Proof.
  intros k8s s tagged.
  apply (Connect_first_call_selects_member "grpc" "prod" (stub false) s
           [backend] backend None
           [ {| PodIP := "10.0.0.1" |}; {| PodIP := "10.0.0.2" |}; {| PodIP := "10.0.0.3" |} ]
           None).
  - apply warm_wf.
  - vm_compute; reflexivity.
  - reflexivity.
  - vm_compute; reflexivity.
  - reflexivity.
  - discriminate.
  - vm_compute; reflexivity.
Defined.

(** X7: A service that the directory does not list: [getService] reports it, the
    caller drops the error and hands the nil service to [getPodsForSvc], which
    dereferences it.  So a rescan of such a service panics, and so does the
    first [Connect] for it. *)
Theorem unknown_service_panics serviceName namespace f currentCache s svcs :
  Services_List (clientset s) namespace = (svcs, None) ->
  (forall x, x ∈ svcs -> ~ occursIn serviceName (svc_Name x)) ->
  updateConnectionPool serviceName namespace f currentCache s = Panic NilDereference /\
  (connectionCache s !! serviceName = None ->
   Connect serviceName namespace f s = Panic NilDereference).
Proof.
  intros Hl Hno.
  assert (Hu : forall cc s1, clientset s1 = clientset s ->
             updateConnectionPool serviceName namespace f cc s1 = Panic NilDereference).
  { intros cc s1 Hs1. unfold updateConnectionPool.
    erewrite bind_Done by reflexivity.
    erewrite bind_Done by (rewrite Hs1; by apply getService_found).
    rewrite findService_none; [done|].
    intros x Hx. destruct (Contains (svc_Name x) serviceName) eqn:Hc; [|done].
    apply Contains_occursIn in Hc. by destruct (Hno x Hx). }
  split; [by apply Hu|].
  intros Hnone. unfold Connect. erewrite bind_Done by reflexivity. rewrite Hnone.
  apply bind_Panic. rewrite getConnectionPool_new by done. by apply Hu.
Qed.

Lemma unknown_service_panics_witness :
  let s := boot (clusterOf ["10.0.0.1"] []) in
  updateConnectionPool "billing" "prod" (stub false) 0%nat s = Panic NilDereference /\
  Connect "billing" "prod" (stub false) s = Panic NilDereference.
Proof.
  intros s.
  destruct (unknown_service_panics "billing" "prod" (stub false) 0%nat s [backend])
    as [Hupdate HConnect].
  - reflexivity.
  - intros x Hx Hocc. apply Contains_occursIn in Hocc.
    apply list_elem_of_singleton in Hx as ->. vm_compute in Hocc. discriminate.
  - split; [exact Hupdate|]. apply HConnect. vm_compute; reflexivity.
Defined.

(** ** [healthCheck]: the pass that returns *)

(** X8: When every probe of every registered pool answers, the pass returns: it
    has slept one second, probed each connection of each pool once, started
    [cleanConnections] on the closed, empty channel, and changed nothing
    else. *)
Theorem healthCheck_all_probes_succeed s :
  wf s ->
  (forall k p v c, connectionCache s !! k = Some p -> poolHeap s !! p = Some v ->
     c ∈ pool_grpcConnection v -> dead s v c = false) ->
  healthCheck s
  = Done (tt, with_trace
                (trace s ++ EvSleep Second :: pings s (map_to_list (connectionCache s))
                   ++ [EvGo (go_cleanConnections (close make_chan))]) s).
Proof.
  intros Hwf Halive. rewrite healthCheck_run by done.
  destruct (existsb _ _) eqn:Hex; [|done]. exfalso.
  apply existsb_exists in Hex as ([k p] & Hkp & Hdead).
  apply list_elem_of_In, elem_of_map_to_list in Hkp.
  unfold poolDead in Hdead. simpl in Hdead.
  destruct (poolHeap s !! p) as [v|] eqn:Hv; [|done].
  apply existsb_exists in Hdead as (c & Hc & Hd). apply list_elem_of_In in Hc.
  by rewrite (Halive k p v c) in Hd.
Qed.

Lemma healthCheck_all_probes_succeed_witness :
  let s := warm (stub false) ["10.0.0.1"; "10.0.0.2"] (clusterOf [] []) in
  healthCheck s
  = Done (tt, with_trace
                (trace s ++ [EvSleep Second; EvPing 0%nat; EvPing 1%nat;
                             EvGo (go_cleanConnections (close make_chan))]) s).
Proof.
  intros s. apply (healthCheck_all_probes_succeed s).
  - apply warm_wf.
  - intros k p v c Hk Hp Hc. subst s. simpl in Hk.
    apply lookup_singleton_Some in Hk as [<- <-].
    injection Hp as <-. unfold dead. by destruct (connHeap _ !! c).
Defined.

Lemma healthCheck_blocks_on_probe_failure_aux s k p v c :
  wf s ->
  connectionCache s !! k = Some p ->
  poolHeap s !! p = Some v ->
  c ∈ pool_grpcConnection v ->
  dead s v c = true ->
  healthCheck s = Blocked.
Proof.
  intros Hwf Hk Hp Hc Hd. rewrite healthCheck_run by done.
  assert (Hex : existsb (poolDead s) (map_to_list (connectionCache s)) = true).
  { apply existsb_exists. exists (k, p). split.
    - apply list_elem_of_In. by apply elem_of_map_to_list.
    - unfold poolDead. simpl. rewrite Hp. apply existsb_exists.
      exists c. split; [by apply list_elem_of_In | done]. }
  by rewrite Hex.
Qed.

Lemma cleanConnections_nothing_reported s :
  cleanConnections (close make_chan) s = Done (tt, s).
Proof. reflexivity. Qed.

(** X9: Whenever a pass returns, no probe had failed, nothing but the trace has
    changed, and the [cleanConnections] goroutine it started finds an empty
    channel and does nothing: no run of [healthCheck] ever evicts. *)
Theorem healthCheck_never_evicts s s' :
  wf s ->
  healthCheck s = Done (tt, s') ->
  (forall k p v c, connectionCache s !! k = Some p -> poolHeap s !! p = Some v ->
     c ∈ pool_grpcConnection v -> dead s v c = false) /\
  last (trace s') = Some (EvGo (go_cleanConnections (close make_chan))) /\
  connectionCache s' = connectionCache s /\ poolHeap s' = poolHeap s /\
  connHeap s' = connHeap s /\
  run (go_cleanConnections (close make_chan)) s' = Done (tt, s').
Proof.
  intros Hwf Hrun. split.
  - intros k p v c Hk Hp Hc. destruct (dead s v c) eqn:Hd; [|done].
    by rewrite (healthCheck_blocks_on_probe_failure_aux s k p v c) in Hrun.
  - rewrite healthCheck_run in Hrun by done.
    destruct (existsb _ _); [done|]. injection Hrun as <-. simpl.
    split; [|done]. by rewrite app_comm_cons, app_assoc, last_snoc.
Qed.

Lemma healthCheck_never_evicts_witness :
  let s := warm (stub false) ["10.0.0.1"] (clusterOf [] []) in
  let s' := with_trace (trace s ++ [EvSleep Second; EvPing 0%nat;
                                    EvGo (go_cleanConnections (close make_chan))]) s in
  healthCheck s = Done (tt, s') /\
  (forall k p v c, connectionCache s !! k = Some p -> poolHeap s !! p = Some v ->
     c ∈ pool_grpcConnection v -> dead s v c = false) /\
  last (trace s') = Some (EvGo (go_cleanConnections (close make_chan))) /\
  connectionCache s' = connectionCache s /\ poolHeap s' = poolHeap s /\
  connHeap s' = connHeap s /\
  run (go_cleanConnections (close make_chan)) s' = Done (tt, s').
Proof.
  intros s s'.
  assert (Hrun : healthCheck s = Done (tt, s')) by (vm_compute; reflexivity).
  split; [exact Hrun|].
  apply (healthCheck_never_evicts s s'); [apply warm_wf | exact Hrun].
Defined.

(** ** [cleanConnections]: what one removal does *)

Lemma removeLoop_absent conns v k rest s :
  v ∉ rest -> removeLoop conns v k rest s = Done (tt, s).
Proof.
  revert k. induction rest as [|gc rest IH]; intros k Hnot; simpl; [done|].
  apply not_elem_of_cons in Hnot as [Hne Hnot].
  destruct (Nat.eqb_spec gc v) as [->|_]; [done | by apply IH].
Qed.

Lemma removeLoop_first conns v k before after s pool x :
  poolHeap s !! conns = Some pool ->
  last (pool_grpcConnection pool) = Some x ->
  v ∉ before ->
  removeLoop conns v k (before ++ v :: after) s
  = Done (tt, with_poolHeap
                (<[conns := {| nConnections := wrap32 (nConnections pool - 1);
                               functions := functions pool;
                               pool_grpcConnection :=
                                 <[(k + length before)%nat := x]> (pool_grpcConnection pool) |}]>
                   (poolHeap s)) s).
Proof.
  intros Hp Hx. revert k. induction before as [|gc before IH]; intros k Hnot; simpl.
  - rewrite Nat.eqb_refl. erewrite bind_Done by (by apply readPool_Done).
    erewrite bind_Done by (by apply index_last). by rewrite Nat.add_0_r.
  - apply not_elem_of_cons in Hnot as [Hne Hnot].
    destruct (Nat.eqb_spec gc v) as [->|_]; [done|].
    rewrite IH by done. by rewrite Nat.add_succ_r.
Qed.

Lemma evict_first_occurrence updateList v s vo p pool before after x :
  connHeap s !! v = Some vo ->
  connectionCache s !! serviceName vo = Some p ->
  poolHeap s !! p = Some pool ->
  pool_grpcConnection pool = before ++ v :: after ->
  v ∉ before ->
  last (pool_grpcConnection pool) = Some x ->
  evict updateList v s
  = Done (<[serviceName vo := Some p]> updateList,
          with_poolHeap
            (<[p := {| nConnections := wrap32 (nConnections pool - 1);
                       functions := functions pool;
                       pool_grpcConnection := before ++ x :: after |}]> (poolHeap s)) s).
Proof.
  intros Hv Hcache Hp Hslice Hnot Hx. unfold evict.
  erewrite bind_Done by (by apply readConn_Done).
  erewrite bind_Done by reflexivity. rewrite Hcache.
  erewrite bind_Done by reflexivity.
  erewrite bind_Done by (by apply readPool_Done).
  rewrite Hslice at 1.
  erewrite bind_Done by (by apply (removeLoop_first p v 0 before after s pool x)).
  rewrite Hslice. simpl.
  replace (length before) with (length before + 0)%nat by lia.
  by rewrite insert_app_r.
Qed.

(** X10: Evicting [v] from the pool of its service overwrites the first slot that
    holds [v] with the last element of the slice, and takes one off the
    count; the slice keeps every other slot, the last one included, and the
    service is put on the list of pools to rescan. *)
Theorem evict_overwrites_with_last updateList v s vo p pool before after x :
  connHeap s !! v = Some vo ->
  connectionCache s !! serviceName vo = Some p ->
  poolHeap s !! p = Some pool ->
  pool_grpcConnection pool = before ++ v :: after ->
  v ∉ before ->
  last (pool_grpcConnection pool) = Some x ->
  evict updateList v s
  = Done (<[serviceName vo := Some p]> updateList,
          with_poolHeap
            (<[p := {| nConnections := wrap32 (nConnections pool - 1);
                       functions := functions pool;
                       pool_grpcConnection := before ++ x :: after |}]> (poolHeap s)) s).
Proof. apply evict_first_occurrence. Qed.

Lemma evict_overwrites_with_last_witness :
  let s := warm (stub true) ["10.0.0.1"; "10.0.0.2"; "10.0.0.3"; "10.0.0.4"] (clusterOf [] []) in
  evict ∅ 1%nat s
  = Done ({[ "backend" := Some 0%nat ]},
          with_poolHeap [ {| nConnections := 3; functions := stub true;
                             pool_grpcConnection := [0%nat; 3%nat; 2%nat; 3%nat] |} ] s).
Proof.
  intros s.
  apply (evict_overwrites_with_last ∅ 1%nat s (conn_at "10.0.0.2") 0%nat
           {| nConnections := 4; functions := stub true;
              pool_grpcConnection := [0%nat; 1%nat; 2%nat; 3%nat] |}
           [0%nat] [2%nat; 3%nat] 3%nat).
  - reflexivity.
  - vm_compute; reflexivity.
  - reflexivity.
  - reflexivity.
  - intros Hin. apply list_elem_of_singleton in Hin. discriminate.
  - reflexivity.
Defined.

(** X11: When the dead connection is the last element of the slice and occurs
    nowhere before, the removal writes it over itself: it stays in the pool,
    and only the count goes down. *)
Theorem evict_last_element_stays updateList v s vo p pool before :
  connHeap s !! v = Some vo ->
  connectionCache s !! serviceName vo = Some p ->
  poolHeap s !! p = Some pool ->
  pool_grpcConnection pool = before ++ [v] ->
  v ∉ before ->
  evict updateList v s
  = Done (<[serviceName vo := Some p]> updateList,
          with_poolHeap
            (<[p := {| nConnections := wrap32 (nConnections pool - 1);
                       functions := functions pool;
                       pool_grpcConnection := pool_grpcConnection pool |}]> (poolHeap s)) s).
Proof.
  intros Hv Hcache Hp Hslice Hnot.
  rewrite (evict_first_occurrence updateList v s vo p pool before [] v); try done.
  - by rewrite Hslice.
  - rewrite Hslice. apply last_snoc.
Qed.

Lemma evict_last_element_stays_witness :
  let s := warm (stub true) ["10.0.0.1"; "10.0.0.2"] (clusterOf [] []) in
  evict ∅ 1%nat s
  = Done ({[ "backend" := Some 0%nat ]},
          with_poolHeap [ {| nConnections := 1; functions := stub true;
                             pool_grpcConnection := [0%nat; 1%nat] |} ] s).
Proof.
  intros s.
  apply (evict_last_element_stays ∅ 1%nat s (conn_at "10.0.0.2") 0%nat
           {| nConnections := 2; functions := stub true;
              pool_grpcConnection := [0%nat; 1%nat] |}
           [0%nat]).
  - reflexivity.
  - vm_compute; reflexivity.
  - reflexivity.
  - reflexivity.
  - intros Hin. apply list_elem_of_singleton in Hin. discriminate.
Defined.

(** X12: A reported connection that is not in the pool of its service (it was
    overwritten by an earlier removal, say) changes neither the slice nor the
    count; its service is still put on the list of pools to rescan. *)
Theorem evict_absent_connection updateList v s vo p pool :
  connHeap s !! v = Some vo ->
  connectionCache s !! serviceName vo = Some p ->
  poolHeap s !! p = Some pool ->
  v ∉ pool_grpcConnection pool ->
  evict updateList v s = Done (<[serviceName vo := Some p]> updateList, s).
Proof.
  intros Hv Hcache Hp Hnot. unfold evict.
  erewrite bind_Done by (by apply readConn_Done).
  erewrite bind_Done by reflexivity. rewrite Hcache.
  erewrite bind_Done by reflexivity.
  erewrite bind_Done by (by apply readPool_Done).
  by erewrite bind_Done by (by apply removeLoop_absent).
Qed.

Lemma evict_absent_connection_witness :
  let s := with_poolHeap [ {| nConnections := 1; functions := stub true;
                              pool_grpcConnection := [1%nat] |} ]
             (warm (stub true) ["10.0.0.1"; "10.0.0.2"] (clusterOf [] [])) in
  evict ∅ 0%nat s = Done ({[ "backend" := Some 0%nat ]}, s).
Proof.
  intros s.
  apply (evict_absent_connection ∅ 0%nat s (conn_at "10.0.0.1") 0%nat
           {| nConnections := 1; functions := stub true; pool_grpcConnection := [1%nat] |}).
  - reflexivity.
  - vm_compute; reflexivity.
  - reflexivity.
  - intros Hin. apply list_elem_of_singleton in Hin. discriminate.
Defined.

(** ** [cleanConnections]: one rescan for a service, however many of its
    connections were reported *)

Lemma evict_updateList updateList v s :
  post (evict updateList v) s (fun updateList' s' =>
    connHeap s' = connHeap s /\ connectionCache s' = connectionCache s /\
    exists vo, connHeap s !! v = Some vo /\
      updateList' = <[serviceName vo := connectionCache s !! serviceName vo]> updateList).
Proof.
  unfold evict. wp. eapply post_mono.
  - apply (post_mono _ _ (fun _ s' => connHeap s' = connHeap s /\
                                      connectionCache s' = connectionCache s)
             (fun _ s' => connHeap s' = connHeap s /\
                          connectionCache s' = connectionCache s)); [|done].
    generalize 0%nat. induction (pool_grpcConnection c) as [|gc rest IH]; intros k; simpl.
    + by wp.
    + destruct (gc =? v)%nat; [|apply IH]. by wp.
  - intros u s1 [Hc Hm]. wp. split; [done|]. split; [done|]. by exists o.
Qed.

Lemma forFold_evict_one_service k p buf :
  forall updateList s s0 updateList' s1,
  connHeap s0 = connHeap s -> connectionCache s0 = connectionCache s ->
  (forall v, v ∈ buf -> exists vo, connHeap s !! v = Some vo /\ serviceName vo = k) ->
  connectionCache s !! k = Some p ->
  forFold buf updateList evict s0 = Done (updateList', s1) ->
  (updateList = ∅ \/ updateList = {[ k := Some p ]}) ->
  (buf <> [] \/ updateList = {[ k := Some p ]}) ->
  updateList' = {[ k := Some p ]}.
Proof.
  induction buf as [|v buf IH]; intros ul s s0 ul' s1 Hc Hm Hbuf Hk Hrun Hul Hne.
  - injection Hrun as <- <-. by destruct Hne.
  - simpl in Hrun. apply bind_Done_inv in Hrun as (ul1 & s01 & Hev & Hrun).
    destruct (evict_updateList ul v s0 ul1 s01 Hev) as (Hc1 & Hm1 & vo & Hvo & ->).
    destruct (Hbuf v) as (vo' & Hvo' & Hsvc); [by left|].
    rewrite Hc, Hvo' in Hvo. injection Hvo as <-. rewrite Hsvc, Hm, Hk in Hrun.
    assert (Hone : <[k := Some p]> ul = {[ k := Some p ]}).
    { destruct Hul as [-> | ->]; [done | apply insert_singleton_eq]. }
    apply (IH (<[k := Some p]> ul) s s01 ul' s1); try done; try congruence.
    + intros v' Hv'. apply Hbuf. by right.
    + by right.
    + by right.
Qed.

Lemma bind_unit_ret (m : M unit) s : (m ≫= fun _ => mret tt) s = m s.
Proof. unfold mbind, M_bind. by destruct (m s) as [[[] s']| | |]. Qed.

(** X13: When all the connections on the (closed) channel belong to one service,
    [cleanConnections] removes them one after the other and then rescans
    that service exactly once. *)
Theorem cleanConnections_rescans_service_once dirtyConnections s k p updateList s1 :
  ch_closed dirtyConnections = true ->
  ch_buf dirtyConnections <> [] ->
  (forall v, v ∈ ch_buf dirtyConnections ->
     exists vo, connHeap s !! v = Some vo /\ serviceName vo = k) ->
  connectionCache s !! k = Some p ->
  forFold (ch_buf dirtyConnections) ∅ evict s = Done (updateList, s1) ->
  updateList = {[ k := Some p ]} /\
  cleanConnections dirtyConnections s = rescan k (Some p) s1.
Proof.
  intros Hclosed Hne Hbuf Hk Hfold.
  assert (Hul : updateList = {[ k := Some p ]}).
  { eapply (forFold_evict_one_service k p _ ∅ s s); eauto. }
  split; [done|]. unfold cleanConnections.
  erewrite bind_Done by exact Hfold. rewrite Hclosed.
  erewrite bind_Done by reflexivity.
  rewrite Hul, map_to_list_singleton. simpl. apply bind_unit_ret.
Qed.

Lemma cleanConnections_rescans_service_once_witness :
  let s := warm (stub true) ["10.0.0.1"; "10.0.0.2"; "10.0.0.3"] (clusterOf ["10.0.0.9"] []) in
  let s1 := with_poolHeap [ {| nConnections := 1; functions := stub true;
                               pool_grpcConnection := [2%nat; 2%nat; 2%nat] |} ] s in
  let ch := {| ch_cap := 2; ch_buf := [0%nat; 1%nat]; ch_closed := true |} in
  forFold (ch_buf ch) ∅ evict s = Done ({[ "backend" := Some 0%nat ]}, s1) /\
  cleanConnections ch s = rescan "backend" (Some 0%nat) s1.
Proof.
  intros s s1 ch.
  assert (Hfold : forFold (ch_buf ch) ∅ evict s = Done ({[ "backend" := Some 0%nat ]}, s1))
    by (vm_compute; reflexivity).
  split; [exact Hfold|].
  apply (cleanConnections_rescans_service_once ch s "backend" 0%nat
           {[ "backend" := Some 0%nat ]} s1).
  - reflexivity.
  - discriminate.
  - intros v Hv. apply elem_of_cons in Hv as [->|Hv]; [by eexists|].
    apply list_elem_of_singleton in Hv as ->. by eexists.
  - vm_compute; reflexivity.
  - exact Hfold.
Defined.

(** The two removals and the single rescan of that run, end to end: the
    slice keeps three slots, all now holding the former last connection, the
    count is 1 + 1, and the new pod was dialled once. *)
Example cleanConnections_two_reports :
  let s := warm (stub true) ["10.0.0.1"; "10.0.0.2"; "10.0.0.3"] (clusterOf ["10.0.0.9"] []) in
  cleanConnections {| ch_cap := 2; ch_buf := [0%nat; 1%nat]; ch_closed := true |} s
  = Done (tt, with_poolHeap [ {| nConnections := 2; functions := stub true;
                                 pool_grpcConnection := [2%nat; 2%nat; 2%nat; 3%nat] |} ]
                (with_connHeap (connHeap s ++ [conn_at "10.0.0.9"])
                   (with_trace (trace s ++ [EvDial "10.0.0.9"]) s))).
Proof. vm_compute. reflexivity. Qed.

(** ** [updatePool]: every registered pool must have a first connection *)

Lemma addPod_frame serviceName namespace currentCache pod s :
  post (addPod serviceName namespace currentCache pod) s
       (fun _ s' => forall q, q <> currentCache -> poolHeap s' !! q = poolHeap s !! q).
Proof.
  unfold addPod. wp. eapply post_mono; [apply scanPool_same|].
  intros u ? ->. unfold dial. wp.
  destruct (Dial _ _) as [conn err]. wp.
  destruct (NewGrpcClient _ _) as [grpcConn [e|]]; wp.
  - done.
  - intros q Hq. simpl. by rewrite list_lookup_insert_ne.
Qed.

Lemma updateConnectionPool_frame serviceName namespace f currentCache s :
  post (updateConnectionPool serviceName namespace f currentCache) s
       (fun _ s' => forall q, q <> currentCache -> poolHeap s' !! q = poolHeap s !! q).
Proof.
  unfold updateConnectionPool. wp.
  eapply post_mono; [apply getService_same|]. intros [svc e] ? ->.
  wp. eapply post_mono; [apply getPodsForSvc_same|]. intros [pods e'] ? ->.
  wp. eapply post_mono.
  - apply (post_forEach
             (fun s' => forall q, q <> currentCache -> poolHeap s' !! q = poolHeap s !! q));
      [|done].
    intros pod s1 _ H1. eapply post_mono; [apply addPod_frame|].
    intros u s2 H2 q Hq. by rewrite H2, H1.
  - intros u s1 H1. by wp.
Qed.

Lemma rescan_needs_first k p s :
  post (rescan k (Some p)) s (fun _ s' =>
    (exists pool, poolHeap s !! p = Some pool /\ pool_grpcConnection pool <> []) /\
    forall q, q <> p -> poolHeap s' !! q = poolHeap s !! q).
Proof.
  unfold rescan. wp. injection H as <-.
  eapply post_mono; [apply updateConnectionPool_frame|].
  intros u s1 Hframe. wp. split; [|done].
  exists c. split; [done|]. intros Hnil. by rewrite Hnil in H2.
Qed.

Lemma forEach_rescan_needs_first (l : list (string * nat)) s s' :
  forEach l (fun kv => rescan kv.1 (Some kv.2)) s = Done (tt, s') ->
  forall kv, kv ∈ l ->
    exists pool, poolHeap s !! kv.2 = Some pool /\ pool_grpcConnection pool <> [].
Proof.
  revert s. induction l as [|kv0 l IH]; intros s Hrun kv Hkv.
  - by apply elem_of_nil in Hkv.
  - simpl in Hrun. apply bind_Done_inv in Hrun as ([] & s1 & Hfirst & Hrest).
    destruct (rescan_needs_first _ _ _ _ _ Hfirst) as [Hpool Hframe].
    destruct (decide (kv.2 = kv0.2)) as [->|Hne]; [done|].
    apply elem_of_cons in Hkv as [->|Hkv]; [done|].
    destruct (IH s1 Hrest kv Hkv) as (pool & Hp & Hnn).
    exists pool. by rewrite <- Hframe.
Qed.

(** X14: [updatePool] reads [v.grpcConnection[0]] of every registered pool: if the
    scan returns, no registered pool was empty when it started.  A pool left
    empty in the registry therefore stops the scan. *)
Theorem updatePool_returns_only_without_empty_pool s s' k p :
  updatePool s = Done (tt, s') ->
  connectionCache s !! k = Some p ->
  exists pool, poolHeap s !! p = Some pool /\ pool_grpcConnection pool <> [].
Proof.
  unfold updatePool, Sleep. intros Hrun Hk.
  apply bind_Done_inv in Hrun as ([] & s1 & Hs & Hrun). injection Hs as <-.
  apply bind_Done_inv in Hrun as (s2 & ? & [= <- <-] & Hrun).
  apply (forEach_rescan_needs_first _ _ _ Hrun (k, p)).
  by apply elem_of_map_to_list.
Qed.

Lemma updatePool_returns_only_without_empty_pool_witness :
  let s := warm (stub false) ["10.0.0.1"] (clusterOf [] []) in
  updatePool s = Done (tt, with_trace (trace s ++ [EvSleep Minute]) s) /\
  exists pool, poolHeap s !! 0%nat = Some pool /\ pool_grpcConnection pool <> [].
Proof.
  intros s.
  assert (Hrun : updatePool s = Done (tt, with_trace (trace s ++ [EvSleep Minute]) s))
    by (vm_compute; reflexivity).
  split; [exact Hrun|].
  apply (updatePool_returns_only_without_empty_pool s _ "backend" 0%nat Hrun).
  vm_compute; reflexivity.
Defined.

(** The registry as a first [Connect] leaves it when the directory lists no
    pod (the call itself panics after storing the pool): the next full scan
    panics on the empty slice. *)
Example updatePool_empty_pool_panics :
  updatePool (registered "backend" (stub false) (boot (clusterOf [] [])))
  = Panic IndexOutOfRange.
Proof. vm_compute. reflexivity. Qed.

(** ** The registry invariant *)

Lemma built_tagged name ns f k8s pods o :
  o ∈ built name ns f k8s pods -> serviceName o = name /\ namespace o = ns.
Proof.
  unfold built. intros Ho. apply list_elem_of_In, in_map_iff in Ho as (pod & <- & _). done.
Qed.

Lemma wf_same_store s s' :
  connectionCache s' = connectionCache s -> poolHeap s' = poolHeap s ->
  connHeap s' = connHeap s -> wf s -> wf s'.
Proof.
  intros Hm Hp Hc [H1 H2]. split.
  - intros k p. rewrite Hm, Hp. apply H1.
  - intros p pool c. rewrite Hp, Hc. apply H2.
Qed.

Lemma consistent_same_store s s' :
  connectionCache s' = connectionCache s -> poolHeap s' = poolHeap s ->
  connHeap s' = connHeap s -> consistent s -> consistent s'.
Proof.
  intros Hm Hp Hc [Hwf Hinj Htag]. split.
  - by apply (wf_same_store s).
  - intros k1 k2 p. rewrite Hm. apply Hinj.
  - intros k p pool. rewrite Hm, Hp. intros Hk Hpool.
    destruct (Htag k p pool Hk Hpool) as [ns Hns]. exists ns. by rewrite Hc.
Qed.

Lemma populated_wf name ns currentCache pool pods s :
  wf s -> poolHeap s !! currentCache = Some pool ->
  wf (populated name ns currentCache pool pods s).
Proof.
  intros Hwf Hp.
  destruct (forEach_addPod_returns name ns currentCache pods s Hwf) as (s' & Hrun & Hwf');
    [by eexists|].
  rewrite (forEach_addPod_populated name ns currentCache pods s pool Hwf Hp) in Hrun.
  by injection Hrun as ->.
Qed.

Lemma populated_consistent name ns currentCache pool pods s :
  consistent s ->
  connectionCache s !! name = Some currentCache ->
  poolHeap s !! currentCache = Some pool ->
  (forall c, c ∈ pool_grpcConnection pool ->
     exists o, connHeap s !! c = Some o /\ namespace o = ns) ->
  consistent (populated name ns currentCache pool pods s).
Proof.
  intros [Hwf Hinj Htag] Hname Hp Hns. split.
  - by apply populated_wf.
  - done.
  - intros k p pool' Hk Hp'. simpl in Hk, Hp'.
    destruct (decide (p = currentCache)) as [->|Hne].
    + rewrite list_lookup_insert_eq in Hp' by (by eapply lookup_lt_Some).
      injection Hp' as <-. assert (k = name) as -> by (by eapply Hinj).
      destruct (Htag name currentCache pool Hname Hp) as [ns0 Hold].
      exists ns. simpl. intros c [Hc|Hc]%elem_of_app.
      * destruct (Hold c Hc) as (o & Ho & Hsvc & _).
        destruct (Hns c Hc) as (o' & Ho' & Hns').
        rewrite Ho in Ho'. injection Ho' as <-.
        exists o. split; [by apply lookup_app_l_Some | done].
      * apply list_elem_of_In, in_seq in Hc as [Hlo Hhi].
        destruct (lookup_lt_is_Some_2
                    (built name ns (functions pool) (clientset s) pods)
                    (c - length (connHeap s))) as [o Ho]; [lia|].
        exists o. split.
        { rewrite lookup_app_r by lia. exact Ho. }
        apply built_tagged with (functions pool) (clientset s) pods.
        by eapply list_elem_of_lookup_2.
    + rewrite list_lookup_insert_ne in Hp' by done.
      destruct (Htag k p pool' Hk Hp') as [ns0 Hold]. exists ns0.
      intros c Hc. destruct (Hold c Hc) as (o & Ho & Hrest).
      exists o. split; [by apply lookup_app_l_Some | done].
Qed.

(** A return of [updateConnectionPool] is the populate of a listed pod list. *)
Lemma updateConnectionPool_Done_inv name ns f currentCache s p s' pool :
  wf s -> poolHeap s !! currentCache = Some pool ->
  updateConnectionPool name ns f currentCache s = Done (p, s') ->
  exists pods, p = currentCache /\ s' = populated name ns currentCache pool pods s.
Proof.
  intros Hwf Hp Hrun.
  destruct (Services_List (clientset s) ns) as [svcs [e|]] eqn:Hl.
  { unfold updateConnectionPool in Hrun. erewrite bind_Done in Hrun by reflexivity.
    erewrite bind_Fatal in Hrun; [done|]. by eapply getService_unreachable. }
  destruct (findService svcs name) as [[svc|] e] eqn:Hf.
  2:{ unfold updateConnectionPool in Hrun. erewrite bind_Done in Hrun by reflexivity.
      erewrite bind_Done in Hrun by (by apply getService_found).
      rewrite Hf in Hrun. done. }
  destruct (Pods_List (clientset s) ns (svc_Selector svc)) as [[pods|] e'] eqn:Hpods.
  2:{ unfold updateConnectionPool in Hrun. erewrite bind_Done in Hrun by reflexivity.
      erewrite bind_Done in Hrun by (by apply getService_found).
      rewrite Hf in Hrun. unfold getPodsForSvc in Hrun.
      erewrite bind_Done in Hrun.
      2:{ erewrite bind_Done by reflexivity. reflexivity. }
      rewrite Hpods in Hrun. done. }
  rewrite (updateConnectionPool_run name ns f currentCache s svcs svc e pods e' pool) in Hrun
    by done.
  injection Hrun as <- <-. by exists pods.
Qed.

Lemma registered_consistent name f s :
  consistent s -> connectionCache s !! name = None -> consistent (registered name f s).
Proof.
  intros [Hwf Hinj Htag] Hnone. split.
  - by apply registered_wf.
  - simpl. intros k1 k2 p H1 H2.
    destruct (decide (name = k1)) as [<-|Hn1], (decide (name = k2)) as [<-|Hn2]; [done| | |].
    + rewrite lookup_insert_eq in H1. injection H1 as <-.
      rewrite lookup_insert_ne in H2 by done.
      apply (wf_cache _ Hwf), lookup_lt_is_Some in H2. lia.
    + rewrite lookup_insert_eq in H2. injection H2 as <-.
      rewrite lookup_insert_ne in H1 by done.
      apply (wf_cache _ Hwf), lookup_lt_is_Some in H1. lia.
    + rewrite lookup_insert_ne in H1, H2 by done. by eapply Hinj.
  - simpl. intros k p pool Hk Hp. apply lookup_app_Some in Hp as [Hp|[_ Hp]].
    + destruct (decide (name = k)) as [<-|Hne].
      * rewrite lookup_insert_eq in Hk. injection Hk as <-.
        apply lookup_lt_Some in Hp. lia.
      * rewrite lookup_insert_ne in Hk by done. by eapply Htag.
    + apply list_lookup_singleton_Some in Hp as [_ <-]. exists ""%string.
      intros c Hc. by apply elem_of_nil in Hc.
Qed.

Lemma getConnectionPool_consistent name ns f s p s' :
  consistent s ->
  getConnectionPool name ns f s = Done (p, s') ->
  consistent s' /\ connectionCache s' !! name = Some p.
Proof.
  intros Hcons Hrun. destruct (connectionCache s !! name) as [p0|] eqn:Hname.
  - unfold getConnectionPool in Hrun. erewrite bind_Done in Hrun by reflexivity.
    rewrite Hname in Hrun. by injection Hrun as <- <-.
  - rewrite getConnectionPool_new in Hrun by done.
    set (empty := {| nConnections := 0; functions := f; pool_grpcConnection := [] |}).
    assert (Hp : poolHeap (registered name f s) !! length (poolHeap s) = Some empty).
    { simpl. rewrite lookup_app_r by done. by rewrite Nat.sub_diag. }
    pose proof (registered_consistent name f s Hcons Hname) as Hcons1.
    destruct (updateConnectionPool_Done_inv _ _ _ _ _ _ _ empty (cons_wf _ Hcons1) Hp Hrun)
      as (pods & -> & ->).
    split.
    + apply populated_consistent; try done.
      * simpl. apply lookup_insert_eq.
      * intros c Hc. by apply elem_of_nil in Hc.
    + simpl. apply lookup_insert_eq.
Qed.

(** X15: [Connect] keeps the registry invariant: after a call that returns, every
    pointer is still valid, no pool is registered twice, and each registered
    pool holds only connections tagged with its own service name and a
    single namespace. *)
Theorem Connect_keeps_registry_consistent name ns f s r s' :
  consistent s ->
  Connect name ns f s = Done (r, s') ->
  consistent s'.
Proof.
  intros Hcons Hrun. unfold Connect in Hrun.
  erewrite bind_Done in Hrun by reflexivity.
  destruct (connectionCache s !! name) as [p0|] eqn:Hname.
  - by injection Hrun as <- <-.
  - apply bind_Done_inv in Hrun as (conn & s1 & Hpool & Hrun).
    apply getConnectionPool_consistent in Hpool as [Hcons1 _]; [|done].
    apply bind_Done_inv in Hrun as (pool & s2 & Hread & Hrun).
    unfold readPool in Hread. erewrite bind_Done in Hread by reflexivity.
    destruct (poolHeap s1 !! conn); [|done]. injection Hread as <- <-.
    apply bind_Done_inv in Hrun as (i & s3 & Hrand & Hrun).
    unfold Int31n in Hrand. destruct (_ <=? 0); [done|].
    injection Hrand as <- <-.
    apply bind_Done_inv in Hrun as (sel & s4 & Hidx & Hrun).
    unfold index in Hidx. destruct (_ <? 0); [done|].
    destruct (pool_grpcConnection _ !! _); [|done]. injection Hidx as <- <-.
    injection Hrun as <- <-. by apply (consistent_same_store s1).
Qed.

Lemma boot_consistent k8s : consistent (boot k8s).
Proof.
  split; [split|..]; simpl.
  - intros k p Hk. by rewrite lookup_empty in Hk.
  - intros p pool c Hp. by rewrite lookup_nil in Hp.
  - intros k1 k2 p Hk. by rewrite lookup_empty in Hk.
  - intros k p pool Hk. by rewrite lookup_empty in Hk.
Qed.

Lemma Connect_keeps_registry_consistent_witness :
  let k8s := clusterOf ["10.0.0.1"; "10.0.0.2"] [] in
  Connect "backend" "prod" (stub false) (boot k8s)
  = Done ((Some 0%nat, None), warm (stub false) ["10.0.0.1"; "10.0.0.2"] k8s) /\
  consistent (warm (stub false) ["10.0.0.1"; "10.0.0.2"] k8s).
Proof.
  intros k8s.
  assert (Hrun : Connect "backend" "prod" (stub false) (boot k8s)
                 = Done ((Some 0%nat, None), warm (stub false) ["10.0.0.1"; "10.0.0.2"] k8s))
    by (vm_compute; reflexivity).
  split; [exact Hrun|].
  apply (Connect_keeps_registry_consistent "backend" "prod" (stub false) (boot k8s) _ _
           (boot_consistent k8s) Hrun).
Defined.

Lemma readPool_Done_inv p s c s' :
  readPool p s = Done (c, s') -> s' = s /\ poolHeap s !! p = Some c.
Proof. apply (post_readPool p s (fun c s' => s' = s /\ poolHeap s !! p = Some c)). done. Qed.

Lemma readConn_Done_inv c s o s' :
  readConn c s = Done (o, s') -> s' = s /\ connHeap s !! c = Some o.
Proof. apply (post_readConn c s (fun o s' => s' = s /\ connHeap s !! c = Some o)). done. Qed.

Lemma index_Done_inv {A} (a : list A) i s x s' :
  index a i s = Done (x, s') -> s' = s /\ a !! Z.to_nat i = Some x.
Proof. apply (post_index a i s (fun x s' => s' = s /\ a !! Z.to_nat i = Some x)). done. Qed.

Lemma deref_Done_inv {A} (o : option A) s a s' :
  deref o s = Done (a, s') -> s' = s /\ o = Some a.
Proof. apply (post_deref o s (fun a s' => s' = s /\ o = Some a)). done. Qed.

Lemma rescan_consistent k p s u s' :
  consistent s -> connectionCache s !! k = Some p ->
  rescan k (Some p) s = Done (u, s') ->
  consistent s' /\ connectionCache s' = connectionCache s.
Proof.
  intros Hcons Hk Hrun. unfold rescan in Hrun.
  erewrite bind_Done in Hrun by reflexivity.
  apply bind_Done_inv in Hrun as (pool & s1 & [-> Hp]%readPool_Done_inv & Hrun).
  apply bind_Done_inv in Hrun as (first & s1 & [-> Hfirst]%index_Done_inv & Hrun).
  apply bind_Done_inv in Hrun as (fo & s1 & [-> Hfo]%readConn_Done_inv & Hrun).
  apply bind_Done_inv in Hrun as (q & s1 & Hupd & Hrun). injection Hrun as _ <-.
  destruct (updateConnectionPool_Done_inv _ _ _ _ _ _ _ pool (cons_wf _ Hcons) Hp Hupd)
    as (pods & -> & ->).
  split; [|done]. apply populated_consistent; try done.
  destruct (cons_tagged _ Hcons k p pool Hk Hp) as [ns0 Htag].
  assert (namespace fo = ns0) as <-.
  { destruct (Htag first) as (o & Ho & _ & Hns); [by eapply list_elem_of_lookup_2|].
    rewrite Hfo in Ho. by injection Ho as <-. }
  intros c Hc. destruct (Htag c Hc) as (o & Ho & _ & Hns). by exists o.
Qed.

Lemma elem_of_overwrite {A} (l : list A) j x c :
  c ∈ <[j := x]> l -> c = x \/ c ∈ l.
Proof.
  intros [i Hi]%list_elem_of_lookup.
  apply list_lookup_insert_Some in Hi as [(_ & -> & _)|[_ Hi]]; [by left|].
  right. by eapply list_elem_of_lookup_2.
Qed.

Lemma overwrite_consistent s p pool x j n :
  consistent s -> poolHeap s !! p = Some pool -> x ∈ pool_grpcConnection pool ->
  consistent
    (with_poolHeap
       (<[p := {| nConnections := n; functions := functions pool;
                  pool_grpcConnection := <[j := x]> (pool_grpcConnection pool) |}]>
          (poolHeap s)) s).
Proof.
  intros [[Hwc Hwp] Hinj Htag] Hp Hx.
  assert (Hsub : forall q pool', 
            <[p := {| nConnections := n; functions := functions pool;
                      pool_grpcConnection := <[j := x]> (pool_grpcConnection pool) |}]>
              (poolHeap s) !! q = Some pool' ->
            exists pool0, poolHeap s !! q = Some pool0 /\
              forall c, c ∈ pool_grpcConnection pool' -> c ∈ pool_grpcConnection pool0).
  { intros q pool' Hq. destruct (decide (q = p)) as [->|Hne].
    - rewrite list_lookup_insert_eq in Hq by (by eapply lookup_lt_Some).
      injection Hq as <-. exists pool. split; [done|]. simpl.
      intros c [->|Hc]%elem_of_overwrite; done.
    - rewrite list_lookup_insert_ne in Hq by done. by exists pool'. }
  split; [split|..]; simpl.
  - intros k q Hk. apply lookup_lt_is_Some. rewrite length_insert.
    apply lookup_lt_is_Some. by eapply Hwc.
  - intros q pool' c Hq Hc. destruct (Hsub q pool' Hq) as (pool0 & Hq0 & Hin).
    eapply Hwp; [exact Hq0 | by apply Hin].
  - done.
  - intros k q pool' Hk Hq. destruct (Hsub q pool' Hq) as (pool0 & Hq0 & Hin).
    destruct (Htag k q pool0 Hk Hq0) as [ns Hns]. exists ns.
    intros c Hc. by apply Hns, Hin.
Qed.

Lemma removeLoop_shape conns v k rest s :
  post (removeLoop conns v k rest) s (fun _ s' =>
    s' = s \/
    exists pool x j n,
      poolHeap s !! conns = Some pool /\ x ∈ pool_grpcConnection pool /\
      s' = with_poolHeap
             (<[conns := {| nConnections := n; functions := functions pool;
                            pool_grpcConnection := <[j := x]> (pool_grpcConnection pool) |}]>
                (poolHeap s)) s).
Proof.
  revert k. induction rest as [|gc rest IH]; intros k; simpl.
  - wp. by left.
  - destruct (gc =? v)%nat; [|apply IH].
    wp. right. exists c, x, k, (wrap32 (nConnections c - 1)).
    split; [done|]. split; [by eapply list_elem_of_lookup_2 | done].
Qed.

Lemma evict_consistent updateList v s updateList' s' :
  consistent s ->
  evict updateList v s = Done (updateList', s') ->
  consistent s' /\ connectionCache s' = connectionCache s /\
  exists k, updateList' = <[k := connectionCache s !! k]> updateList.
Proof.
  intros Hcons Hrun. unfold evict in Hrun.
  apply bind_Done_inv in Hrun as (vo & s1 & [-> Hvo]%readConn_Done_inv & Hrun).
  erewrite bind_Done in Hrun by reflexivity.
  apply bind_Done_inv in Hrun as (p & s1 & [-> Hk]%deref_Done_inv & Hrun).
  apply bind_Done_inv in Hrun as (pool & s1 & [-> Hp]%readPool_Done_inv & Hrun).
  apply bind_Done_inv in Hrun as ([] & s1 & Hloop & Hrun). injection Hrun as <- <-.
  assert (Hs1 : consistent s1 /\ connectionCache s1 = connectionCache s).
  { destruct (removeLoop_shape _ _ _ _ _ _ _ Hloop)
      as [-> | (pool1 & x & j & n & Hpool & Hx & ->)]; [done|].
    split; [by apply overwrite_consistent | done]. }
  destruct Hs1 as [Hc1 Hm1]. split; [done|]. split; [done|].
  by exists (serviceName vo).
Qed.

Lemma forFold_evict_consistent buf :
  forall updateList s updateList' s',
  consistent s ->
  (forall k v, updateList !! k = Some v -> v = connectionCache s !! k) ->
  forFold buf updateList evict s = Done (updateList', s') ->
  consistent s' /\ connectionCache s' = connectionCache s /\
  forall k v, updateList' !! k = Some v -> v = connectionCache s !! k.
Proof.
  induction buf as [|v buf IH]; intros ul s ul' s' Hcons Hul Hrun.
  - by injection Hrun as <- <-.
  - simpl in Hrun. apply bind_Done_inv in Hrun as (ul1 & s1 & Hev & Hrun).
    destruct (evict_consistent _ _ _ _ _ Hcons Hev) as (Hc1 & Hm1 & k1 & ->).
    assert (Hul1 : forall k v0, <[k1 := connectionCache s !! k1]> ul !! k = Some v0 ->
                     v0 = connectionCache s1 !! k).
    { intros k v0. rewrite Hm1. destruct (decide (k1 = k)) as [->|Hne].
      - rewrite lookup_insert_eq. by intros [= <-].
      - rewrite lookup_insert_ne by done. apply Hul. }
    destruct (IH _ _ _ _ Hc1 Hul1 Hrun) as (Hc' & Hm' & Hul').
    split; [done|]. split; [congruence|]. intros k v0 Hv0. rewrite <- Hm1. by apply Hul'.
Qed.

Lemma forEach_rescan_consistent (l : list (string * option nat)) :
  forall s s',
  consistent s ->
  (forall kv, kv ∈ l -> kv.2 = connectionCache s !! kv.1) ->
  forEach l (fun kv => rescan kv.1 kv.2) s = Done (tt, s') ->
  consistent s' /\ connectionCache s' = connectionCache s.
Proof.
  induction l as [|[k v] l IH]; intros s s' Hcons Hl Hrun.
  - by injection Hrun as <-.
  - simpl in Hrun. apply bind_Done_inv in Hrun as ([] & s1 & Hfirst & Hrun).
    assert (Hv : v = connectionCache s !! k) by (apply (Hl (k, v)); by left).
    destruct v as [p|]; [|done].
    destruct (rescan_consistent k p s _ s1 Hcons (eq_sym Hv) Hfirst) as [Hc1 Hm1].
    destruct (IH s1 s' Hc1) as [Hc' Hm']; [|done|].
    + intros kv Hkv. rewrite Hm1. apply Hl. by right.
    + split; [done | congruence].
Qed.

Lemma forEach_fmap {A B} (g : A -> B) (l : list A) (body : B -> M unit) s :
  forEach (g <$> l) body s = forEach l (fun x => body (g x)) s.
Proof.
  revert s. induction l as [|x l IH]; intros s; [done|].
  simpl. unfold mbind, M_bind. by destruct (body (g x) s) as [[[] s1]| | |].
Qed.

(** X16: The background goroutines keep the registry invariant: after a run of
    [healthCheck], [updatePool] or [cleanConnections] (on any channel
    contents) that returns, the registry has the same entries, every pointer
    is valid, no pool is registered twice and every registered pool still
    holds only connections of its own service and of a single namespace. *)
Theorem goroutines_keep_registry_consistent g s s' :
  consistent s ->
  run g s = Done (tt, s') ->
  consistent s' /\ connectionCache s' = connectionCache s.
Proof.
  intros Hcons Hrun. destruct g as [| |ch]; simpl in Hrun.
  - rewrite healthCheck_run in Hrun by apply (cons_wf _ Hcons).
    destruct (existsb _ _); [done|]. injection Hrun as <-.
    split; [|done]. by apply (consistent_same_store s).
  - unfold updatePool, Sleep in Hrun.
    apply bind_Done_inv in Hrun as ([] & s1 & Hs & Hrun). injection Hs as <-.
    apply bind_Done_inv in Hrun as (s2 & ? & [= <- <-] & Hrun).
    assert (Hc1 : consistent (with_trace (trace s ++ [EvSleep Minute]) s))
      by (by apply (consistent_same_store s)).
    change (forEach (map_to_list (connectionCache s))
              (fun x => (fun kv : string * option nat => rescan kv.1 kv.2)
                          ((fun kv : string * nat => (kv.1, Some kv.2)) x))
              (with_trace (trace s ++ [EvSleep Minute]) s) = Done (tt, s')) in Hrun.
    rewrite <- forEach_fmap in Hrun.
    apply forEach_rescan_consistent in Hrun as [Hc' Hm']; [done|done|].
    intros kv [[k p] [-> Hkp]]%list_elem_of_fmap. simpl.
    by apply elem_of_map_to_list in Hkp.
  - unfold cleanConnections in Hrun.
    apply bind_Done_inv in Hrun as (updateList & s1 & Hfold & Hrun).
    apply bind_Done_inv in Hrun as ([] & s2 & Hclosed & Hrun).
    assert (s2 = s1) as ->.
    { destruct (ch_closed ch); [by injection Hclosed | done]. }
    assert (Hempty : forall (k : string) (v : option nat),
              (∅ : gmap string (option nat)) !! k = Some v -> v = connectionCache s !! k).
    { intros k v Hv. by rewrite lookup_empty in Hv. }
    destruct (forFold_evict_consistent _ _ _ _ _ Hcons Hempty Hfold) as (Hc1 & Hm1 & Hul).
    apply forEach_rescan_consistent in Hrun as [Hc' Hm']; [split; [done|congruence]|done|].
    intros [k v] Hkv. simpl. rewrite Hm1. apply Hul. by apply elem_of_map_to_list.
Qed.

Lemma lookup_map {A B} (g : A -> B) (l : list A) (i : nat) :
  map g l !! i = g <$> l !! i.
Proof. revert i. induction l as [|x l IH]; intros [|i]; simpl; by try apply IH. Qed.

Lemma warm_consistent f ips k8s : consistent (warm f ips k8s).
Proof.
  split; [apply warm_wf|..]; simpl.
  - intros k1 k2 p [<- _]%lookup_singleton_Some [<- _]%lookup_singleton_Some. done.
  - intros k p pool [<- <-]%lookup_singleton_Some [= <-]. exists "prod"%string. simpl.
    intros c [_ Hc]%list_elem_of_In%in_seq.
    destruct (lookup_lt_is_Some_2 ips c) as [ip Hip]; [lia|].
    exists (conn_at ip). split; [|done].
    by rewrite lookup_map, Hip.
Qed.

Lemma goroutines_keep_registry_consistent_witness :
  let s := warm (stub true) ["10.0.0.1"; "10.0.0.2"] (clusterOf ["10.0.0.2"; "10.0.0.3"] []) in
  let ch := {| ch_cap := 1; ch_buf := [0%nat]; ch_closed := true |} in
  let tagged ip := {| gc_grpcConnection := Some 1%nat; connectionIP := ip;
                      serviceName := "backend"; namespace := "prod" |} in
  let s' := with_poolHeap [ {| nConnections := 3; functions := stub true;
                               pool_grpcConnection := [1%nat; 1%nat; 2%nat; 3%nat] |} ]
              (with_connHeap (connHeap s ++ [tagged "10.0.0.2"; tagged "10.0.0.3"])
                 (with_trace (trace s ++ [EvDial "10.0.0.2"; EvDial "10.0.0.3"]) s)) in
  run (go_cleanConnections ch) s = Done (tt, s') /\
  consistent s' /\ connectionCache s' = connectionCache s.
Proof.
  intros s ch tagged s'.
  assert (Hrun : run (go_cleanConnections ch) s = Done (tt, s')) by (vm_compute; reflexivity).
  split; [exact Hrun|].
  apply (goroutines_keep_registry_consistent (go_cleanConnections ch) s s'
           (warm_consistent _ _ _) Hrun).
Defined.

(** X17: In a registry of that shape a report is always matched to the pool that
    holds the reported connection: for a connection in the pool registered
    for [k], the lookup by its service name finds that pool, the removal
    returns (no nil dereference) and takes one off that pool's count. *)
Theorem evict_finds_owning_pool updateList v s k p pool :
  consistent s ->
  connectionCache s !! k = Some p ->
  poolHeap s !! p = Some pool ->
  v ∈ pool_grpcConnection pool ->
  exists s' pool',
    evict updateList v s = Done (<[k := Some p]> updateList, s') /\
    poolHeap s' !! p = Some pool' /\
    nConnections pool' = wrap32 (nConnections pool - 1) /\
    length (pool_grpcConnection pool') = length (pool_grpcConnection pool).
Proof.
  intros Hcons Hk Hp Hv.
  destruct (cons_tagged _ Hcons k p pool Hk Hp) as [ns Htag].
  destruct (Htag v Hv) as (vo & Hvo & Hsvc & _).
  destruct (last (pool_grpcConnection pool)) as [x|] eqn:Hx.
  2:{ apply last_None in Hx. rewrite Hx in Hv. by apply elem_of_nil in Hv. }
  destruct (removeLoop_found p v 0 (pool_grpcConnection pool) s pool x Hp Hx Hv)
    as (k' & Hloop).
  eexists _, _. split; [|split; [|split]].
  - unfold evict. erewrite bind_Done by (by apply readConn_Done).
    erewrite bind_Done by reflexivity. rewrite Hsvc, Hk.
    erewrite bind_Done by reflexivity.
    erewrite bind_Done by (by apply readPool_Done).
    by erewrite bind_Done by exact Hloop.
  - simpl. apply list_lookup_insert_eq. by eapply lookup_lt_Some.
  - reflexivity.
  - simpl. by rewrite length_insert.
Qed.

Lemma evict_finds_owning_pool_witness :
  let s := warm (stub true) ["10.0.0.1"; "10.0.0.2"] (clusterOf [] []) in
  exists s' pool',
    evict ∅ 0%nat s = Done ({[ "backend" := Some 0%nat ]}, s') /\
    poolHeap s' !! 0%nat = Some pool' /\
    nConnections pool' = 1 /\
    length (pool_grpcConnection pool') = 2%nat.
Proof.
  intros s.
  apply (evict_finds_owning_pool ∅ 0%nat s "backend" 0%nat
           {| nConnections := 2; functions := stub true;
              pool_grpcConnection := [0%nat; 1%nat] |}).
  - apply warm_consistent.
  - vm_compute; reflexivity.
  - reflexivity.
  - by left.
Defined.

(** X18: The full scan prunes nothing: when [updatePool] returns, every pool's
    slice starts with the slice it had before, so each former member is still
    in its pool, at the same index and with the same contents, whether or not
    the directory still lists its address. *)
Theorem updatePool_never_prunes s s' q pool :
  updatePool s = Done (tt, s') ->
  poolHeap s !! q = Some pool ->
  exists pool',
    poolHeap s' !! q = Some pool' /\
    pool_grpcConnection pool `prefix_of` pool_grpcConnection pool' /\
    forall c o, c ∈ pool_grpcConnection pool -> connHeap s !! c = Some o ->
      c ∈ pool_grpcConnection pool' /\ connHeap s' !! c = Some o.
Proof.
  intros Hrun Hq. apply updatePool_grows in Hrun as Hg.
  destruct (grows_pools _ _ Hg q pool Hq) as (pool' & Hq' & _ & Hpre).
  exists pool'. split; [done|]. split; [done|].
  intros c o Hc Ho. split.
  - destruct Hpre as [more ->]. apply elem_of_app. by left.
  - destruct (grows_conns _ _ Hg) as [more Hmore]. simpl in Hmore.
    rewrite Hmore. by apply lookup_app_l_Some.
Qed.

Lemma updatePool_never_prunes_witness :
  let s := warm (stub false) ["10.0.0.1"] (clusterOf ["10.0.0.2"] []) in
  let s' := with_poolHeap [ {| nConnections := 2; functions := stub false;
                               pool_grpcConnection := [0%nat; 1%nat] |} ]
              (with_connHeap (connHeap s ++ [conn_at "10.0.0.2"])
                 (with_trace (trace s ++ [EvSleep Minute; EvDial "10.0.0.2"]) s)) in
  updatePool s = Done (tt, s') /\
  exists pool',
    poolHeap s' !! 0%nat = Some pool' /\
    [0%nat] `prefix_of` pool_grpcConnection pool' /\
    forall c o, c ∈ [0%nat] -> connHeap s !! c = Some o ->
      c ∈ pool_grpcConnection pool' /\ connHeap s' !! c = Some o.
Proof.
  intros s s'.
  assert (Hrun : updatePool s = Done (tt, s')) by (vm_compute; reflexivity).
  split; [exact Hrun|].
  apply (updatePool_never_prunes s s' 0%nat
           {| nConnections := 1; functions := stub false; pool_grpcConnection := [0%nat] |}
           Hrun).
  reflexivity.
Defined.

(** X19: Once [getConnectionPool] has returned a pool for a service, every later
    call for that service returns the same pool and changes nothing, whatever
    namespace and capability it is given: the pool stays bound to the
    namespace and the capability of the first caller. *)
Theorem getConnectionPool_idempotent name ns f s p s' ns' f' :
  getConnectionPool name ns f s = Done (p, s') ->
  getConnectionPool name ns' f' s' = Done (p, s').
Proof.
  intros Hrun.
  assert (Hp : connectionCache s' !! name = Some p).
  { destruct (connectionCache s !! name) as [p0|] eqn:Hname.
    - unfold getConnectionPool in Hrun. erewrite bind_Done in Hrun by reflexivity.
      rewrite Hname in Hrun. by injection Hrun as <- <-.
    - rewrite getConnectionPool_new in Hrun by done.
      apply updateConnectionPool_grows in Hrun as [-> Hg].
      rewrite (grows_cache _ _ Hg). simpl. apply lookup_insert_eq. }
  unfold getConnectionPool. erewrite bind_Done by reflexivity. by rewrite Hp.
Qed.

Lemma getConnectionPool_idempotent_witness :
  let k8s := clusterOf ["10.0.0.1"] [] in
  let s' := with_randPos 0 (warm (stub false) ["10.0.0.1"] k8s) in
  getConnectionPool "backend" "prod" (stub false) (boot k8s) = Done (0%nat, s') /\
  getConnectionPool "backend" "staging" strict s' = Done (0%nat, s').
Proof.
  intros k8s s'.
  assert (Hrun : getConnectionPool "backend" "prod" (stub false) (boot k8s) = Done (0%nat, s'))
    by (vm_compute; reflexivity).
  split; [exact Hrun|].
  apply (getConnectionPool_idempotent "backend" "prod" (stub false) (boot k8s) 0%nat s'
           "staging" strict Hrun).
Defined.
